(** * Reference resolution in ReSpec: [core/biblio] and [core/render-biblio]

    A shallow embedding of the bibliography engine: the two network
    adapters ([updateFromSpecref], [updateFromCrossref]), their driver
    [updateFromNetwork], the resolution pass [Plugin.run], the two alias
    walks ([resolveRef], [toRefContent]) and the de-duplication of the
    rendered list ([getUniqueRefs], [getAliases]).

    Conventions.
    - A JS string is a [string] of code units below 256.
    - In [core/biblio], a plain JS object used as a dictionary is the
      [gmap string _] of its own properties, and its entries are values:
      that code tests [hasOwnProperty] before it reads the store and
      writes only into objects it has just parsed. [core/render-biblio]
      reads the store through its prototype and writes into the entries
      it finds, so there the store is a table of references into a heap
      of objects, with its own effects ([Page]).
    - Entries have the fields and field types of [BiblioData]. A Specref
      body is a JSON object or is not JSON; a Crossref body may lack
      [message.items], and an element of that array may be any JSON
      value.
    - A JS [Set] or array is a [list] in insertion order.
    - [null] and [undefined] are both [None].
    - Effects (console, IndexedDB writes, the exported store, the [done]
      promise, reported errors) live in [World]; a JS exception is the
      [Throw] completion.
    - [biblioDB] (module [core/biblio-db]) and [fetch] are parameters,
      gathered in [Env]. *)

From Stdlib Require Import ZArith NArith Ascii.
From stdpp Require Import gmap strings list sorting.

Local Open Scope Z_scope.
Set Warnings "-clear-no-such-hyp".

(** ** Strings *)

Module Js.

(** [WhiteSpace] and [LineTerminator] code units below 256, the ones
    [String.prototype.trim] strips. *)
Definition isWhiteSpace (a : ascii) : bool :=
  let n := N_of_ascii a in
  ((9 <=? n) && (n <=? 13) || (n =? 32) || (n =? 160))%N.

Fixpoint trimStart (s : string) : string :=
  match s with
  | EmptyString => EmptyString
  | String a s' => if isWhiteSpace a then trimStart s' else s
  end.

Fixpoint trimEnd (s : string) : string :=
  match s with
  | EmptyString => EmptyString
  | String a s' =>
      match trimEnd s' with
      | EmptyString => if isWhiteSpace a then EmptyString else String a EmptyString
      | t => String a t
      end
  end.

Definition trim (s : string) : string := trimEnd (trimStart s).

(** Truthiness of a string: only the empty string is falsy. *)
Definition truthy (s : string) : bool :=
  match s with EmptyString => false | _ => true end.

(** Truthiness of an optional string property. *)
Definition truthyProp (o : option string) : bool :=
  match o with Some s => truthy s | None => false end.

Definition startsWith (s pre : string) : bool := String.prefix pre s.

Definition lowerUnit (a : ascii) : ascii :=
  let n := N_of_ascii a in
  if ((65 <=? n) && (n <=? 90) || (192 <=? n) && (n <=? 222) && negb (n =? 215))%N
  then ascii_of_N (n + 32) else a.

Fixpoint toLowerCase (s : string) : string :=
  match s with
  | EmptyString => EmptyString
  | String a s' => String (lowerUnit a) (toLowerCase s')
  end.

(** [Array.prototype.join]. *)
Definition join (sep : string) (l : list string) : string := String.concat sep l.

(** [new Set(l)] read back in insertion order: the first occurrence of
    every element is kept. *)
Fixpoint newSet (seen l : list string) : list string :=
  match l with
  | [] => []
  | x :: l' =>
      if bool_decide (x ∈ seen) then newSet seen l'
      else x :: newSet (x :: seen) l'
  end.

(** [Array.prototype.sort] without a comparator, on strings. *)
Definition sort (l : list string) : list string := merge_sort String.le l.

End Js.

(** ** Data model *)

(** A bibliography entry, [BiblioData]: an alias ([aliasOf]) or content.
    [reference] is the list of cited works that Crossref attaches to a
    work; it is carried as an opaque string. *)
Record BiblioData := mkBiblioData {
  aliasOf : option string;
  id : option string;
  title : option string;
  href : option string;
  DOI : option string;
  reference : option string;
}.

Definition setId (v : string) (e : BiblioData) : BiblioData :=
  mkBiblioData (aliasOf e) (Some v) (title e) (href e) (DOI e) (reference e).

Definition deleteReference (e : BiblioData) : BiblioData :=
  mkBiblioData (aliasOf e) (id e) (title e) (href e) (DOI e) None.

(** [Conf['biblio']]: reference key to entry. *)
Abbreviation Biblio := (gmap string BiblioData).

(** [Object.assign(target, source)] and [{...a, ...b}]: the later source
    wins. *)
Definition assign (target source : Biblio) : Biblio := source ∪ target.

Definition hasOwnProperty (o : Biblio) (key : string) : bool :=
  bool_decide (is_Some (o !! key)).

(** Spreading [null] adds no property. *)
Definition spread (o : option Biblio) : Biblio := default ∅ o.

(** ** Exceptions, console, world *)

Inductive Error :=
| ReferenceError (ident : string)   (* unresolvable identifier *)
| TypeError (what : string)         (* property read on undefined *)
| SyntaxError                       (* response.json() on a body that is not JSON *)
| NetworkError                      (* fetch() rejected *)
| IdbError.                         (* IndexedDB failure *)

(** How a computation ends: with a value, with an exception, or not at
    all ([Unsettled]: a promise that never settles, a loop that has not
    finished within the step budget). *)
Inductive Completion (A : Type) :=
| Normal (a : A)
| Throw (e : Error)
| Unsettled.
Arguments Normal {A} a.
Arguments Throw {A} e.
Arguments Unsettled {A}.

Inductive Logged :=
| ErrorObject (e : Error)   (* console.error(err) *)
| ErrorText (msg : string)  (* console.error("...") *)
| WarnObject (e : Error).   (* console.warn(err) *)

Inductive Promise := Pending | Resolved.

(** The document configuration the plugin works on. *)
Record Conf := mkConf {
  normativeReferences : list string;
  informativeReferences : list string;
  localBiblio : option Biblio;
}.

Record World := mkWorld {
  biblio : Biblio;                 (* export const biblio = {} *)
  done : Promise;                  (* settles with the store object itself *)
  conf : Conf;
  console : list Logged;
  idbWrites : list (Biblio * option Z);   (* biblioDB.addAll(data, expires) *)
  shownErrors : list string;       (* errors shown to the author; this module shows none *)
}.

Definition M (A : Type) : Type := World → Completion A * World.

Definition ret {A} (a : A) : M A := λ w, (Normal a, w).
Definition throw {A} (e : Error) : M A := λ w, (Throw e, w).
Definition unsettled {A} : M A := λ w, (Unsettled, w).
Definition bind {A B} (k : A → M B) (m : M A) : M B :=
  λ w, match m w with
       | (Normal a, w') => k a w'
       | (Throw e, w') => (Throw e, w')
       | (Unsettled, w') => (Unsettled, w')
       end.

#[global] Instance M_ret : MRet M := @ret.
#[global] Instance M_bind : MBind M := @bind.

(** [try { m } catch (err) { h err }]. *)
Definition tryCatch {A} (m : M A) (h : Error → M A) : M A :=
  λ w, match m w with
       | (Normal a, w') => (Normal a, w')
       | (Throw e, w') => h e w'
       | (Unsettled, w') => (Unsettled, w')
       end.

Definition log (l : Logged) : M unit :=
  λ w, (Normal tt,
        mkWorld (biblio w) (done w) (conf w) (console w ++ [l]) (idbWrites w) (shownErrors w)).

Definition getWorld : M World := λ w, (Normal w, w).

Definition setBiblio (b : Biblio) : M unit :=
  λ w, (Normal tt, mkWorld b (done w) (conf w) (console w) (idbWrites w) (shownErrors w)).

Definition setConf (c : Conf) : M unit :=
  λ w, (Normal tt, mkWorld (biblio w) (done w) c (console w) (idbWrites w) (shownErrors w)).

Definition resolveDone : M unit :=
  λ w, (Normal tt, mkWorld (biblio w) Resolved (conf w) (console w) (idbWrites w) (shownErrors w)).

Definition recordAddAll (data : Biblio) (expires : option Z) : M unit :=
  λ w, (Normal tt,
        mkWorld (biblio w) (done w) (conf w) (console w) (idbWrites w ++ [(data, expires)])
                (shownErrors w)).

(** ** The environment of one pass *)

Record Response (D : Type) := mkResponse {
  status : Z;
  headers : list (string * string);
  json : option D;     (* [None]: the body is not JSON, [json()] rejects *)
}.
Arguments mkResponse {D}.
Arguments status {D}.
Arguments headers {D}.
Arguments json {D}.

(** [Response.ok]: the status is in the range 200-299. *)
Definition ok {D} (r : Response D) : bool := (200 <=? status r) && (status r <=? 299).

Inductive Fetched (D : Type) :=
| Rejected (e : Error)
| Fulfilled (r : Response D).
Arguments Rejected {D} e.
Arguments Fulfilled {D} r.

(** An element of [message.items]: [null], a work (an object), or any
    other JSON value (a number, a string, a boolean, an array), which has
    no [DOI] property. *)
Inductive CrossrefItem :=
| ItemNull
| ItemOther
| ItemWork (work : BiblioData).

#[global] Instance CrossrefItem_eq_dec : EqDecision CrossrefItem.
Proof.
  intros [| |[a1 i1 t1 h1 d1 r1]] [| |[a2 i2 t2 h2 d2 r2]];
    try (by left); try (by right).
  destruct (decide (a1 = a2)), (decide (i1 = i2)), (decide (t1 = t2)),
    (decide (h1 = h2)), (decide (d1 = d2)), (decide (r1 = r2));
    first [left; congruence | right; congruence].
Defined.

(** What a Crossref body parses to: [messageItems] is [data.message.items]
    when that path leads to an array. *)
Record CrossrefData := mkCrossrefBody {
  messageItems : option (list CrossrefItem);
}.

(** The body whose [message.items], if any, are all works. *)
Definition mkCrossrefData (items : option (list BiblioData)) : CrossrefData :=
  mkCrossrefBody ((λ works : list BiblioData, ItemWork <$> works) <$> items).

(** What an identifier can be bound to, as far as lines 57-59 of
    [updateFromNetwork] can tell: a [Response], a number, or anything
    else. *)
Inductive Binding :=
| ResponseObject (r : Response Biblio)
| NumberValue (n : Z)
| OtherValue.

(** Result of [biblioDB.find(id)]. *)
Inductive Found :=
| FindRejects
| FindYields (data : option BiblioData).

Record Env := mkEnv {
  onLine : bool;                                    (* navigator.onLine *)
  now : Z;                                          (* Date.now() *)
  fetchSpecref : string → Fetched Biblio;           (* fetch, at api.specref.org *)
  fetchCrossref : string → Fetched CrossrefData;    (* fetch, at api.crossref.org *)
  dateParse : string → option Z;                    (* Date.parse, None is NaN *)
  idbReady : bool;                                  (* does biblioDB.ready fulfil *)
  idbFind : string → Found;
  idbAddAll : bool;                                 (* does biblioDB.addAll fulfil *)
  pageGlobals : list (string * Binding);            (* globals the page itself defines *)
}.

Record Options := mkOptions { forceUpdate : bool }.

Definition bibrefsURL : string := "https://api.specref.org/bibrefs?refs=".
Definition crossrefURL : string := "https://api.crossref.org/works?filter=".

(** ** Source adapters *)

(** [updateFromSpecref(refsToFetch, options)]: the reference map, or
    [null]. *)
Definition updateFromSpecref (env : Env) (refsToFetch : list string) (options : Options)
  : M (option Biblio) :=
  if (length refsToFetch =? 0)%nat || negb (onLine env) then mret None
  else
    let oneHourFromNow := now env + 1000 * 60 * 60 * 1 in
    match fetchSpecref env (bibrefsURL +:+ Js.join "," refsToFetch) with
    | Rejected err => log (ErrorObject err);; mret None
    | Fulfilled response =>
        if (negb (forceUpdate options) && negb (ok response))
           || negb (status response =? 200)
        then mret None
        else
          match json response with
          | None => throw SyntaxError
          | Some data => mret (Some data)
          end
    end.

(** [Array.prototype.reduce] with an effectful callback. *)
Fixpoint reduce {A B} (f : B → A → M B) (l : list A) (init : B) : M B :=
  match l with
  | [] => mret init
  | x :: l' => acc ← f init x; reduce f l' acc
  end.

(** The callback of the [reduce] in [updateFromCrossref]. Reading [DOI]
    off [null] throws; any other value that is not a work has no [DOI]. *)
Definition collectWork (collector : Biblio) (item : CrossrefItem) : M Biblio :=
  match item with
  | ItemNull => throw (TypeError "item.DOI")
  | ItemOther =>
      log (ErrorText "Invalid DOI metadata returned by Crossref");;
      mret collector
  | ItemWork item =>
      if Js.truthyProp (DOI item) then
        let id := "doi:" +:+ default EmptyString (DOI item) in
        let item := deleteReference (setId id item) in
        mret (<[id := item]> collector)
      else
        log (ErrorText "Invalid DOI metadata returned by Crossref");;
        mret collector
  end.

(** [updateFromCrossref(refsToFetch)]. *)
Definition updateFromCrossref (env : Env) (refsToFetch : list string) : M (option Biblio) :=
  if (length refsToFetch =? 0)%nat || negb (onLine env) then mret None
  else
    match fetchCrossref env (crossrefURL +:+ Js.join "," refsToFetch) with
    | Rejected err => log (ErrorObject err);; mret None
    | Fulfilled response =>
        match json response with
        | None => throw SyntaxError
        | Some data =>
            match messageItems data with
            | None => throw (TypeError "data.message.items")
            | Some items =>
                keyToMetadata ← reduce collectWork items ∅;
                mret (Some keyToMetadata)
            end
        end
    end.

(** ** Identifier resolution *)

(** Top-level declarations of the module [core/biblio]. *)
Definition moduleScope : list (string * Binding) :=
  (λ x, (x, OtherValue)) <$>
  ["biblioDB"; "createResourceHint"; "biblio"; "name"; "bibrefsURL"; "crossrefURL";
   "link"; "doneResolver"; "done"; "updateFromNetwork"; "updateFromCrossref";
   "updateFromSpecref"; "resolveRef"; "getReferencesFromIdb"; "Plugin";
   "citationMetadataToJsonld"; "specrefMetadataToJsonld"; "crossrefMetadataToJsonld";
   "crossrefAuthorToJsonld"].

(** The standard properties of the global object that the module reads.
    The global object has many more; none of them is named [response] or
    [oneHourFromNow], so only the page can add such a binding (a script,
    or an element whose id is that name). *)
Definition globalScope : list (string * Binding) :=
  (λ x, (x, OtherValue)) <$>
  ["document"; "navigator"; "fetch"; "console"; "Date"; "Math"; "URL"; "Promise";
   "Set"; "Object"; "Array"].

(** Parameters and [const]s of [updateFromNetwork], then the enclosing
    scopes. *)
Definition updateFromNetworkScope (env : Env) : list (string * Binding) :=
  ((λ x, (x, OtherValue)) <$>
   ["refs"; "options"; "refsToFetch"; "specrefIds"; "crossrefIds"; "specrefData";
    "crossrefData"; "data"; "expires"])
  ++ moduleScope ++ globalScope ++ pageGlobals env.

Fixpoint lookupBinding (scope : list (string * Binding)) (x : string) : option Binding :=
  match scope with
  | [] => None
  | (y, b) :: scope' => if bool_decide (x = y) then Some b else lookupBinding scope' x
  end.

(** Evaluating an identifier in strict code: an unresolvable one throws. *)
Definition identifier (scope : list (string * Binding)) (x : string) : M Binding :=
  match lookupBinding scope x with
  | Some b => mret b
  | None => throw (ReferenceError x)
  end.

(** ** updateFromNetwork *)

Definition refsToFetch (refs : list string) : list string :=
  filter (λ ref, Js.truthy (Js.trim ref) = true) (Js.newSet [] refs).

Definition specrefIds (refs : list string) : list string :=
  filter (λ ref, negb (Js.startsWith ref "doi:") = true) (refsToFetch refs).

Definition crossrefIds (refs : list string) : list string :=
  filter (λ ref, Js.startsWith ref "doi:" = true) (refsToFetch refs).

(** [Headers.get]: header names compare case-insensitively. *)
Fixpoint headersGet (h : list (string * string)) (name : string) : option string :=
  match h with
  | [] => None
  | (k, v) :: h' =>
      if bool_decide (Js.toLowerCase k = Js.toLowerCase name) then Some v
      else headersGet h' name
  end.

(** [Math.min] on numbers that may be NaN. *)
Definition mathMin (a b : option Z) : option Z :=
  match a, b with
  | Some x, Some y => Some (Z.min x y)
  | _, _ => None
  end.

(** Lines 57-59, as a function of the values of [response] and
    [oneHourFromNow]. *)
Definition expiresOf (env : Env) (response : Response Biblio) (oneHourFromNow : Z)
  : option Z :=
  match headersGet (headers response) "Expires" with
  | Some v => mathMin (dateParse env v) (Some oneHourFromNow)
  | None => Some oneHourFromNow
  end.

Definition addAll (env : Env) (data : Biblio) (expires : option Z) : M unit :=
  if idbAddAll env then recordAddAll data expires else throw IdbError.

Definition updateFromNetwork (env : Env) (refs : list string) (options : Options)
  : M Biblio :=
  specrefData ← updateFromSpecref env (specrefIds refs) options;
  crossrefData ← updateFromCrossref env (crossrefIds refs);
  let data := assign (spread specrefData) (spread crossrefData) in
  response ← identifier (updateFromNetworkScope env) "response";
  expires ←
    match response with
    | ResponseObject r =>
        oneHourFromNow ← identifier (updateFromNetworkScope env) "oneHourFromNow";
        match oneHourFromNow with
        | NumberValue t => mret (expiresOf env r t)
        | _ => mret None
        end
    | _ => throw (TypeError "response.headers")
    end;
  tryCatch (addAll env data expires) (λ err, log (ErrorObject err));;
  mret data.

(** ** The resolution pass *)

(** [getReferencesFromIdb(neededRefs)]: one [{ id, data }] per key. When
    the database is not ready or a [find] rejects, every key is a miss. *)
Definition findAll (env : Env) (neededRefs : list string)
  : M (list (string * option BiblioData)) :=
  if idbReady env then
    reduce (λ acc id,
              match idbFind env id with
              | FindRejects => throw IdbError
              | FindYields data => mret (acc ++ [(id, data)])
              end) neededRefs []
  else throw IdbError.

Definition getReferencesFromIdb (env : Env) (neededRefs : list string)
  : M (list (string * option BiblioData)) :=
  tryCatch (findAll env neededRefs)
           (λ err, log (WarnObject err);; mret ((λ id, (id, None)) <$> neededRefs)).

Module Plugin.

(** [Set.prototype.delete] on the insertion-ordered list. *)
Definition setDelete (k : string) (s : list string) : list string :=
  filter (λ x, x ≠ k) s.

Definition normalizeReferences (c : Conf) : Conf :=
  let normalizedNormativeRefs := Js.newSet [] (Js.toLowerCase <$> normativeReferences c) in
  let redundant :=
    filter (λ key, Js.toLowerCase key ∈ normalizedNormativeRefs) (informativeReferences c) in
  mkConf (normativeReferences c)
         (foldl (λ s redundantKey, setDelete redundantKey s) (informativeReferences c) redundant)
         (localBiblio c).

(** [Object.keys(o)]; the order is immaterial below, the keys are sorted
    before use. *)
Definition keys (o : Biblio) : list string := (map_to_list o).*1.

Definition localAliases (local : Biblio) : list string :=
  filter (λ key, hasOwnProperty local key = false)
    (omap (λ key, local !! key ≫= aliasOf) (keys local)).

(** [getRefKeys()]: the two key sets as arrays, normative first. *)
Definition getRefKeys (c : Conf) : list string * list string :=
  (normativeReferences c, informativeReferences c).

Definition neededRefs (allRefs : list string * list string) (local : Biblio)
    (aliases : list string) : list string :=
  Js.newSet []
    (Js.sort
       (filter (λ key, hasOwnProperty local key = false) (allRefs.1 ++ allRefs.2)
        ++ aliases)).

(** [run()]. [this.conf.biblio] is the exported store itself; [finish]
    resolves [done] with it. *)
Definition run (env : Env) : M unit :=
  w ← getWorld;
  let local := default ∅ (localBiblio (conf w)) in
  setConf (mkConf (normativeReferences (conf w)) (informativeReferences (conf w)) (Some local));;
  let aliases := localAliases local in
  w ← getWorld;
  setConf (normalizeReferences (conf w));;
  w ← getWorld;
  let allRefs := getRefKeys (conf w) in
  let needed := neededRefs allRefs local aliases in
  idbRefs ← (if (length needed =? 0)%nat then mret [] else getReferencesFromIdb env needed);
  let hasData := omap (λ ref, (λ d, (ref.1, d)) <$> ref.2) idbRefs in
  let noData := filter (λ ref, ref.2 = None) idbRefs in
  w ← getWorld;
  setBiblio (foldl (λ b ref, <[ref.1 := ref.2]> b) (biblio w) hasData);;
  let externalRefs := noData.*1 in
  (if (length externalRefs =? 0)%nat then mret tt
   else
     data ← updateFromNetwork env externalRefs (mkOptions true);
     w ← getWorld;
     setBiblio (assign (biblio w) data));;
  w ← getWorld;
  setBiblio (assign (biblio w) local);;
  resolveDone.

End Plugin.

(** ** Alias walks *)

(** [await done]: resumes with the store once the pass has finished. *)
Definition awaitDone : M Biblio :=
  λ w, match done w with
       | Resolved => (Normal (biblio w), w)
       | Pending => (Unsettled, w)
       end.

(** [resolveRef(key)] of [core/biblio]; [fuel] bounds the number of
    calls. *)
Fixpoint resolveRef (fuel : nat) (key : string) : M (option BiblioData) :=
  match fuel with
  | O => unsettled
  | S fuel' =>
      store ← awaitDone;
      match store !! key with
      | None => mret None
      | Some entry =>
          if Js.truthyProp (aliasOf entry)
          then resolveRef fuel' (default EmptyString (aliasOf entry))
          else mret (Some entry)
      end
  end.

(** ** The store as [core/render-biblio] reads it *)

(** [toRefContent] reads [biblio[key]] without [hasOwnProperty], so what
    it finds may be inherited from [Object.prototype]; the entry it finds
    may be a string as well as an object; and it writes [id] into the
    object it found, which other holders of that object see too
    ([conf.localBiblio] after the [Object.assign] of [run], another key of
    the store). So here the objects live in a heap, and the store holds
    references to them.

    Conventions. The prototype of [biblio] is [Object.prototype]. An
    object has the own properties [BiblioData] names and no others that
    matter; [String.prototype] and [Function.prototype] have none of them;
    properties are plain data properties of objects that are not frozen. *)

(** A reference to an object: [Object.prototype], one of its built-in
    methods, or an object at some heap address. *)
Inductive Loc :=
| ObjectPrototype
| Builtin (name : string)
| EntryObject (address : positive).

#[global] Instance Loc_eq_dec : EqDecision Loc.
Proof. solve_decision. Defined.

#[global] Instance Loc_countable : Countable Loc.
Proof.
  refine (inj_countable'
            (λ l, match l with
                  | ObjectPrototype => inl ()
                  | Builtin name => inr (inl name)
                  | EntryObject address => inr (inr address)
                  end)
            (λ x, match x with
                  | inl _ => ObjectPrototype
                  | inr (inl name) => Builtin name
                  | inr (inr address) => EntryObject address
                  end) _).
  by intros [].
Defined.

(** What a property of the store can hold: a string or an object. *)
Inductive Value :=
| VString (s : string)
| VObject (l : Loc).

#[global] Instance Value_eq_dec : EqDecision Value.
Proof. solve_decision. Defined.

Record Page := mkPage {
  objects : gmap Loc BiblioData;   (* the heap: own properties of each object *)
  entries : gmap string Value;     (* the own properties of [biblio] *)
  reported : list string;          (* showError(msg, name) *)
}.

(** Computations of [core/render-biblio]. *)
Definition R (A : Type) : Type := Page → Completion A * Page.

#[global] Instance R_ret : MRet R := λ A a p, (Normal a, p).
#[global] Instance R_bind : MBind R :=
  λ A B k m p, match m p with
               | (Normal a, p') => k a p'
               | (Throw e, p') => (Throw e, p')
               | (Unsettled, p') => (Unsettled, p')
               end.

Definition throwOnPage {A} (e : Error) : R A := λ p, (Throw e, p).
Definition unsettledOnPage {A} : R A := λ p, (Unsettled, p).
Definition getPage : R Page := λ p, (Normal p, p).

Definition setObjects (o : gmap Loc BiblioData) : R unit :=
  λ p, (Normal tt, mkPage o (entries p) (reported p)).

(** [showError(msg, name)] of [core/utils]. *)
Definition showErrorOnPage (msg : string) : R unit :=
  λ p, (Normal tt, mkPage (objects p) (entries p) (reported p ++ [msg])).

(** An object without own properties, and the object at a location. *)
Definition emptyObject : BiblioData := mkBiblioData None None None None None None.

Definition objectAt (p : Page) (l : Loc) : BiblioData :=
  default emptyObject (objects p !! l).

(** The own property [name] of an object. *)
Definition field (name : string) (o : BiblioData) : option string :=
  if bool_decide (name = "aliasOf") then aliasOf o
  else if bool_decide (name = "id") then id o
  else if bool_decide (name = "title") then title o
  else if bool_decide (name = "href") then href o
  else if bool_decide (name = "DOI") then DOI o
  else if bool_decide (name = "reference") then reference o
  else None.

(** The methods of [Object.prototype]. *)
Definition objectPrototypeMethods : list string :=
  ["constructor"; "__defineGetter__"; "__defineSetter__"; "hasOwnProperty";
   "__lookupGetter__"; "__lookupSetter__"; "isPrototypeOf"; "propertyIsEnumerable";
   "toString"; "valueOf"; "toLocaleString"].

(** [Object.prototype[key]], read with [biblio] as receiver: the accessor
    [__proto__] gives the prototype of [biblio], a method name gives the
    method, and any other name an own data property of
    [Object.prototype]. *)
Definition prototypeGet (p : Page) (key : string) : option Value :=
  if bool_decide (key = "__proto__") then Some (VObject ObjectPrototype)
  else if bool_decide (key ∈ objectPrototypeMethods) then Some (VObject (Builtin key))
  else VString <$> field key (objectAt p ObjectPrototype).

(** [biblio[key]]: an own property, else through the prototype. *)
Definition storeGet (p : Page) (key : string) : option Value :=
  match entries p !! key with
  | Some v => Some v
  | None => prototypeGet p key
  end.

(** [value.name]: an own property of the object, else through the
    prototype chain, which ends at [Object.prototype]; a string has no
    such own property. *)
Definition get (p : Page) (v : Value) (name : string) : option string :=
  let inherited := field name (objectAt p ObjectPrototype) in
  match v with
  | VString _ => inherited
  | VObject l =>
      match field name (objectAt p l) with
      | Some s => Some s
      | None => inherited
      end
  end.

(** Truthiness of a value, and of what a variable holds. *)
Definition truthyValue (v : Value) : bool :=
  match v with
  | VString s => Js.truthy s
  | VObject _ => true
  end.

Definition truthyContent (c : option Value) : bool :=
  match c with
  | Some v => truthyValue v
  | None => false
  end.

(** [value.id = x] in strict code: on an object it defines or updates the
    own property; on a string it throws. *)
Definition putId (v : Value) (x : string) : R unit :=
  match v with
  | VString _ => throwOnPage (TypeError "refcontent.id")
  | VObject l =>
      p ← getPage;
      setObjects (<[l := setId x (objectAt p l)]> (objects p))
  end.

(** What [toRefContent] returns. *)
Record Ref := mkRef {
  ref : string;
  refcontent : option Value;
}.

Definition circularMsg (ref key : string) : string :=
  "Circular reference in biblio DB between [`" +:+ ref +:+ "`] and [`" +:+ key +:+ "`].".

(** The [while] loop of [toRefContent] over its three variables; [fuel]
    bounds the number of evaluations of the loop condition. It yields the
    final [refcontent] and [key]. *)
Fixpoint followAliases (fuel : nat) (ref : string) (refcontent : option Value)
    (key : string) (circular : gset string) : R (option Value * string) :=
  match fuel with
  | O => unsettledOnPage
  | S fuel' =>
      p ← getPage;
      match refcontent with
      | Some rc =>
          if truthyValue rc && Js.truthyProp (get p rc "aliasOf") then
            let target := default EmptyString (get p rc "aliasOf") in
            if bool_decide (target ∈ circular) then
              showErrorOnPage (circularMsg ref key);;
              followAliases fuel' ref None key circular
            else
              followAliases fuel' ref (storeGet p target) target ({[target]} ∪ circular)
          else mret (refcontent, key)
      | None => mret (None, key)
      end
  end.

(** [toRefContent(ref)] of [core/render-biblio]. *)
Definition toRefContent (fuel : nat) (ref : string) : R Ref :=
  p ← getPage;
  '(refcontent, key) ← followAliases fuel ref (storeGet p ref) ref {[ref]};
  p ← getPage;
  match refcontent with
  | Some rc =>
      (if truthyValue rc && negb (Js.truthyProp (get p rc "id"))
       then putId rc (Js.toLowerCase ref)
       else mret tt);;
      mret (mkRef ref refcontent)
  | None => mret (mkRef ref None)
  end.

(** [refs.map(toRefContent)], the first step of
    [createReferencesSection]: every key resolved, in order. *)
Fixpoint resolveAll (fuel : nat) (refs : list string) : R (list Ref) :=
  match refs with
  | [] => mret []
  | r :: refs' =>
      x ← toRefContent fuel r;
      xs ← resolveAll fuel refs';
      mret (x :: xs)
  end.

(** ** Grouping and de-duplication *)

(** An element of [goodRefs] as [getUniqueRefs] and [getAliases] read
    it: its key, and the properties of its [refcontent]. *)
Record GoodRef := mkGoodRef {
  goodRef : string;
  goodContent : BiblioData;
}.

(** [groupRefs(refs)]: the references with a truthy [refcontent], and the
    others. *)
Definition groupRefs (refs : list Ref) : list Ref * list Ref :=
  (filter (λ r, truthyContent (refcontent r) = true) refs,
   filter (λ r, truthyContent (refcontent r) = false) refs).


(** A JS [Map]: keys in insertion order; [set] on a present key replaces
    the value in place. *)
Module JsMap.
Section JsMap.
Context {K V : Type} `{EqDecision K}.

Fixpoint get (m : list (K * V)) (k : K) : option V :=
  match m with
  | [] => None
  | (k', v) :: m' => if bool_decide (k = k') then Some v else get m' k
  end.

Definition has (m : list (K * V)) (k : K) : bool := bool_decide (is_Some (get m k)).

Fixpoint set (m : list (K * V)) (k : K) (v : V) : list (K * V) :=
  match m with
  | [] => [(k, v)]
  | (k', v') :: m' => if bool_decide (k = k') then (k, v) :: m' else (k', v') :: set m' k v
  end.

Definition values (m : list (K * V)) : list V := m.*2.

End JsMap.
End JsMap.

(** [ref.refcontent.id], the canonical id of a good reference. *)
Definition canonicalId (r : GoodRef) : option string := id (goodContent r).

Definition getUniqueRefs (refs : list GoodRef) : list GoodRef :=
  JsMap.values
    (foldl (λ uniqueRefs r,
              if negb (JsMap.has uniqueRefs (canonicalId r))
              then JsMap.set uniqueRefs (canonicalId r) r
              else uniqueRefs)
           [] refs).

(** [getAliases(refs)]: canonical id to the keys that resolve to it. The
    array stored under the id is extended in place. *)
Definition getAliases (refs : list GoodRef) : list (option string * list string) :=
  foldl (λ aliases r,
           let key := canonicalId r in
           let aliases := if negb (JsMap.has aliases key) then JsMap.set aliases key []
                          else aliases in
           JsMap.set aliases key (default [] (JsMap.get aliases key) ++ [goodRef r]))
        [] refs.

(** ** Notions used to state the properties *)

(** A key that is empty or made of white space only. *)
Fixpoint blank (s : string) : bool :=
  match s with
  | EmptyString => true
  | String a s' => Js.isWhiteSpace a && blank s'
  end.

(** The world after some console output, and after some reported errors. *)
Definition appendLog (logs : list Logged) (w : World) : World :=
  mkWorld (biblio w) (done w) (conf w) (console w ++ logs) (idbWrites w) (shownErrors w).

(** The Specref request is made and answered with status 200, and the
    body is not JSON. *)
Definition specrefBodyUnparsed (env : Env) (refs : list string) : Prop :=
  refs ≠ [] ∧ onLine env = true ∧
  ∃ r, fetchSpecref env (bibrefsURL +:+ Js.join "," refs) = Fulfilled r
       ∧ status r = 200 ∧ json r = None.

(** The Crossref request is made and answered, and the body is not JSON
    or has no [message.items] array. *)
Definition crossrefBodyUnusable (env : Env) (refs : list string) : Prop :=
  refs ≠ [] ∧ onLine env = true ∧
  ∃ r, fetchCrossref env (crossrefURL +:+ Js.join "," refs) = Fulfilled r
       ∧ (json r = None ∨ json r = Some (mkCrossrefData None)).

(** The key a Crossref work is filed under: [doi:] and its DOI, when the
    DOI is a non-empty string. *)
Definition crossrefKey (item : BiblioData) : option string :=
  match DOI item with
  | Some d => if Js.truthy d then Some ("doi:" +:+ d) else None
  | None => None
  end.

(** A work as it is stored: [id] set to its key, [reference] removed. *)
Definition stamped (key : string) (item : BiblioData) : BiblioData :=
  deleteReference (setId key item).

Definition collected (items : list BiblioData) (init : Biblio) : Biblio :=
  foldl (λ c item, match crossrefKey item with
                   | Some k => <[k := stamped k item]> c
                   | None => c
                   end) init items.

Definition invalidDoiLog : Logged := ErrorText "Invalid DOI metadata returned by Crossref".

(** The work an item of [message.items] is, if it is one. *)
Definition asWork (item : CrossrefItem) : option BiblioData :=
  match item with
  | ItemWork work => Some work
  | _ => None
  end.

(** The situations an adapter can be in. Specref gives no answer: the
    request is not made (no key, or offline), is rejected, or is answered
    with a status other than 200. *)
Definition specrefNoAnswer (env : Env) (refs : list string) : Prop :=
  refs = [] ∨ onLine env = false
  ∨ (∃ err, fetchSpecref env (bibrefsURL +:+ Js.join "," refs) = Rejected err)
  ∨ (∃ r, fetchSpecref env (bibrefsURL +:+ Js.join "," refs) = Fulfilled r ∧ status r ≠ 200).

(** Specref answers with status 200 and a body that parses to [data]. *)
Definition specrefAnswer (env : Env) (refs : list string) (data : Biblio) : Prop :=
  refs ≠ [] ∧ onLine env = true ∧
  ∃ r, fetchSpecref env (bibrefsURL +:+ Js.join "," refs) = Fulfilled r
       ∧ status r = 200 ∧ json r = Some data.

(** Crossref gives no answer: the request is not made or is rejected. *)
Definition crossrefNoAnswer (env : Env) (refs : list string) : Prop :=
  refs = [] ∨ onLine env = false
  ∨ (∃ err, fetchCrossref env (crossrefURL +:+ Js.join "," refs) = Rejected err).

(** Crossref answers, and [response.json()] gives [body] ([None]: it
    rejects). *)
Definition crossrefAnswer (env : Env) (refs : list string) (body : option CrossrefData)
  : Prop :=
  refs ≠ [] ∧ onLine env = true ∧
  ∃ r, fetchCrossref env (crossrefURL +:+ Js.join "," refs) = Fulfilled r ∧ json r = body.

(** The cache, seen from [getReferencesFromIdb]. *)
Definition findOk (env : Env) (id : string) : bool :=
  match idbFind env id with FindRejects => false | FindYields _ => true end.

Definition findData (env : Env) (id : string) : option BiblioData :=
  match idbFind env id with FindRejects => None | FindYields d => d end.

Definition cacheUp (env : Env) (needed : list string) : bool :=
  idbReady env && forallb (findOk env) needed.

Definition idbRefsOf (env : Env) (needed : list string) : list (string * option BiblioData) :=
  if cacheUp env needed then (λ id, (id, findData env id)) <$> needed
  else (λ id, (id, None)) <$> needed.

Definition idbLogs (env : Env) (needed : list string) : list Logged :=
  if cacheUp env needed then [] else [WarnObject IdbError].

(** The stages of [Plugin.run] on a world [w]: the override table, the
    configuration after [normalizeReferences], the needed keys, the keys
    left for the network ([externalRefs]), the world once the cache hits
    are in the store, and the world of a pass that fetched nothing. *)
Definition localOf (w : World) : Biblio := default ∅ (localBiblio (conf w)).

Definition confAfter (w : World) : Conf :=
  Plugin.normalizeReferences
    (mkConf (normativeReferences (conf w)) (informativeReferences (conf w)) (Some (localOf w))).

Definition neededOf (w : World) : list string :=
  Plugin.neededRefs (Plugin.getRefKeys (confAfter w)) (localOf w)
                    (Plugin.localAliases (localOf w)).

Definition externalRefsOf (env : Env) (w : World) : list string :=
  (filter (λ ref, ref.2 = None) (idbRefsOf env (neededOf w))).*1.

Definition afterCache (env : Env) (w : World) : World :=
  mkWorld
    (foldl (λ b ref, <[ref.1 := ref.2]> b) (biblio w)
           (omap (λ ref, (λ d, (ref.1, d)) <$> ref.2) (idbRefsOf env (neededOf w))))
    (done w) (confAfter w)
    (console w ++ (if bool_decide (neededOf w = []) then [] else idbLogs env (neededOf w)))
    (idbWrites w) (shownErrors w).

Definition settled (env : Env) (w : World) : World :=
  mkWorld (assign (biblio (afterCache env w)) (localOf w)) Resolved (confAfter w)
          (console (afterCache env w)) (idbWrites w) (shownErrors w).

(** Lines 54-65 of [updateFromNetwork]: what it does with the results of
    the two adapters. *)
Definition storeBatch (env : Env) (specrefData crossrefData : option Biblio) : M Biblio :=
  let data := assign (spread specrefData) (spread crossrefData) in
  response ← identifier (updateFromNetworkScope env) "response";
  expires ←
    match response with
    | ResponseObject r =>
        oneHourFromNow ← identifier (updateFromNetworkScope env) "oneHourFromNow";
        match oneHourFromNow with
        | NumberValue t => mret (expiresOf env r t)
        | _ => mret None
        end
    | _ => throw (TypeError "response.headers")
    end;
  tryCatch (addAll env data expires) (λ err, log (ErrorObject err));;
  mret data.



(** The loop body of [getUniqueRefs]. *)
Definition uniqueStep (uniqueRefs : list (option string * GoodRef)) (r : GoodRef) :=
  if negb (JsMap.has uniqueRefs (canonicalId r))
  then JsMap.set uniqueRefs (canonicalId r) r
  else uniqueRefs.

(** ** Notions for the render side *)

(** The page after some reported errors. *)
Definition addReports (msgs : list string) (p : Page) : Page :=
  mkPage (objects p) (entries p) (reported p ++ msgs).

(** The names [Object.prototype] can answer to, and the keys at which
    [biblio[key]] can be defined. *)
Definition inheritedNames : gset string :=
  list_to_set ("__proto__" :: objectPrototypeMethods
               ++ ["aliasOf"; "id"; "title"; "href"; "DOI"; "reference"]).

Definition storeKeys (p : Page) : gset string := dom (entries p) ∪ inheritedNames.

(** Turns that the alias loop of [toRefContent] can still take, and a
    number of turns that is enough from the start. *)
Definition budget (p : Page) (refcontent : option Value) (circular : gset string) : nat :=
  match refcontent with
  | None => 1
  | Some _ => size (storeKeys p ∖ circular) + 2
  end.

Definition turns (p : Page) : nat := size (storeKeys p) + 2.

(** Does the alias loop go on from [v]: [v && v.aliasOf]. *)
Definition isAlias (p : Page) (v : Value) : bool :=
  truthyValue v && Js.truthyProp (get p v "aliasOf").

(** The keys the alias loop visits from [key], when it meets no key
    twice within [fuel] turns; and the key it ends at. *)
Fixpoint aliasPath (fuel : nat) (p : Page) (key : string) : option (list string) :=
  match fuel with
  | O => None
  | S fuel' =>
      match storeGet p key with
      | None => Some [key]
      | Some v =>
          if isAlias p v
          then (λ l, key :: l) <$> aliasPath fuel' p (default EmptyString (get p v "aliasOf"))
          else Some [key]
      end
  end.

Definition leadsTo (p : Page) (ref key : string) : Prop :=
  ∃ fuel c, aliasPath fuel p ref = Some c ∧ last c = Some key.

(** The properties of a value, as reading them on page [p] gives them,
    and the good references of [refs] as [getUniqueRefs] and [getAliases]
    read them on [p]. *)
Definition viewOf (p : Page) (v : Value) : BiblioData :=
  mkBiblioData (get p v "aliasOf") (get p v "id") (get p v "title") (get p v "href")
               (get p v "DOI") (get p v "reference").

Definition goodRefsOn (p : Page) (refs : list Ref) : list GoodRef :=
  omap (λ r, (λ v, mkGoodRef (ref r) (viewOf p v)) <$> refcontent r) refs.

(** The page of a store of objects, one object per key, with
    [Object.prototype] as built in. *)
Definition addressOf (key : string) : Loc := EntryObject (encode key).

Definition pageOf (store : Biblio) : Page :=
  mkPage (kmap addressOf store) (map_imap (λ key _, Some (VObject (addressOf key))) store) [].

(** The entry [toRefContent] leaves behind: [id] defaults to the
    lower-cased requested key. *)
Definition withDefaultId (ref : string) (e : BiblioData) : BiblioData :=
  if Js.truthyProp (id e) then e else setId (Js.toLowerCase ref) e.

(** ** Sample documents, stores and environments *)

Definition aliasEntry (target : string) : BiblioData :=
  mkBiblioData (Some target) None None None None None.

(** The alias chain A -> B -> A. *)
Definition cycleStore : Biblio := <["A" := aliasEntry "B"]> (<["B" := aliasEntry "A"]> ∅).

Definition cycleWorld : World :=
  mkWorld cycleStore Resolved (mkConf ["A"] [] None) [] [] [].

Definition emptyWorld : World := mkWorld ∅ Pending (mkConf [] [] None) [] [] [].

Definition rfc2119 : BiblioData :=
  mkBiblioData None None (Some "Key words for use in RFCs to Indicate Requirement Levels")
               (Some "https://www.rfc-editor.org/rfc/rfc2119") None None.

Definition localEntry : BiblioData :=
  mkBiblioData None None (Some "A locally defined reference") None None None.

Definition staleHtml : BiblioData :=
  mkBiblioData None None (Some "HTML 5.1") (Some "https://www.w3.org/TR/html51/") None None.

Definition localHtml : BiblioData :=
  mkBiblioData None None (Some "HTML Standard") (Some "https://html.spec.whatwg.org/") None None.

(** Specref answers 200 with one entry and an [Expires] header half an
    hour ahead; the cache is empty. *)
Definition freshEnv : Env :=
  mkEnv true 1700000000000
        (λ _, Fulfilled (mkResponse 200 [("Expires", "Tue, 14 Nov 2023 22:43:20 GMT")]
                                    (Some {["RFC2119" := rfc2119]})))
        (λ _, Rejected NetworkError)
        (λ _, Some 1700001800000)
        true (λ _, FindYields None) true [].

(** Specref answers 200 with a body that is not JSON. *)
Definition malformedEnv : Env :=
  mkEnv true 1700000000000
        (λ _, Fulfilled (mkResponse 200 [] None))
        (λ _, Rejected NetworkError)
        (λ _, None)
        true (λ _, FindYields None) true [].

(** Specref answers 404. *)
Definition notFoundEnv : Env :=
  mkEnv true 1700000000000
        (λ _, Fulfilled (mkResponse 404 [] (Some ∅)))
        (λ _, Rejected NetworkError)
        (λ _, None)
        true (λ _, FindYields None) true [].

(** The network is down; the cache holds RFC2119. *)
Definition cachedEnv : Env :=
  mkEnv true 1700000000000
        (λ _, Rejected NetworkError)
        (λ _, Rejected NetworkError)
        (λ _, None)
        true
        (λ id, if bool_decide (id = "RFC2119") then FindYields (Some rfc2119)
               else FindYields None)
        true [].

Definition emptyDoiWork : BiblioData :=
  mkBiblioData None None (Some "A work whose DOI is the empty string") None
               (Some EmptyString) None.

Definition noDoiWork : BiblioData :=
  mkBiblioData None None (Some "A work without DOI") None None None.

Definition doiWork : BiblioData :=
  mkBiblioData None None (Some "The DOI Handbook") None (Some "10.1000/182")
               (Some "[cited works]").

(** Crossref answers with the given items. *)
Definition crossrefEnv (items : list BiblioData) : Env :=
  mkEnv true 1700000000000
        (λ _, Rejected NetworkError)
        (λ _, Fulfilled (mkResponse 200 [] (Some (mkCrossrefData (Some items)))))
        (λ _, None)
        true (λ _, FindYields None) true [].

(** A document citing RFC2119 and LOCAL, the latter defined in
    [localBiblio]. *)
Definition overrideWorld : World :=
  mkWorld ∅ Pending
          (mkConf ["RFC2119"] ["LOCAL"] (Some {["LOCAL" := localEntry]}))
          [] [] [].

(** A store that already holds HTML, and a document that overrides it. *)
Definition staleWorld : World :=
  mkWorld {["HTML" := staleHtml]} Pending
          (mkConf ["RFC2119"; "HTML"] [] (Some {["HTML" := localHtml]}))
          [] [] [].

(** ** Further functions of [core/render-biblio] and [core/biblio] *)

(** [String.prototype.endsWith]: some tail of [s] is [suffix]. *)
Fixpoint endsWith (s suffix : string) : bool :=
  if bool_decide (s = suffix) then true
  else match s with
       | EmptyString => false
       | String _ s' => endsWith s' suffix
       end.

(** [endNormalizer(endStr)], and its instance [endWithDot]. *)
Definition endNormalizer (endStr : string) (str : string) : string :=
  let trimmed := Js.trim str in
  if negb (Js.truthy trimmed) || endsWith trimmed endStr then trimmed
  else trimmed +:+ endStr.

Definition endWithDot : string → string := endNormalizer ".".

(** A Crossref author. *)
Record CrossrefAuthor := mkCrossrefAuthor {
  given : option string;
  family : option string;
  literal : option string;
  ORCID : option string;
}.

(** The double quote, as a string. *)
Definition dquote : string := String (ascii_of_nat 34) EmptyString.

(** [renderCrossrefAuthor(author)]: the markup of one author, or [null].
    [orcidSvgHtml] is the icon markup that [core/utils] exports. *)
Definition renderCrossrefAuthor (orcidSvgHtml : string) (author : CrossrefAuthor)
  : option string :=
  let name :=
    if Js.truthyProp (given author) && Js.truthyProp (family author)
    then Some (default EmptyString (given author) +:+ " "
               +:+ default EmptyString (family author))
    else if Js.truthyProp (family author) then family author
    else literal author in
  if Js.truthyProp name then
    if Js.truthyProp (ORCID author) then
      Some (default EmptyString name +:+ "&nbsp;<a href=" +:+ dquote
            +:+ default EmptyString (ORCID author) +:+ dquote +:+ ">"
            +:+ orcidSvgHtml +:+ "</a>")
    else name
  else None.

(** The JSON-LD person [crossrefAuthorToJsonld] builds. *)
Record Creator := mkCreator {
  givenName : option string;
  familyName : option string;
  creatorName : option string;    (* name *)
  sameAs : option string;
}.

Definition crossrefAuthorToJsonld (author : CrossrefAuthor) : Creator :=
  let name :=
    if Js.truthyProp (given author) && Js.truthyProp (family author)
       && negb (Js.truthyProp (literal author))
    then Some (default EmptyString (given author) +:+ " "
               +:+ default EmptyString (family author))
    else if Js.truthyProp (family author) && negb (Js.truthyProp (literal author))
    then family author
    else literal author in
  mkCreator (given author) (family author) name
            (if Js.truthyProp (ORCID author) then ORCID author else None).

(** An entry together with the further fields the JSON-LD translation
    reads. *)
Record Citation := mkCitation {
  entry : BiblioData;
  authors : option (list string);
  rawDate : option string;
  isbn : option string;
  publisher : option string;
  URL : option string;
  subtitle : option string;
  author : option (list CrossrefAuthor);
}.

Record JsonLd := mkJsonLd {
  ld_id : option string;
  ld_type : option string;
  ld_name : option string;
  ld_url : option string;
  ld_subtitle : option string;
  ld_creator : option (list Creator);
  ld_publishedDate : option string;
  ld_identifier : option string;
  ld_publisher : option string;     (* publisher.name *)
}.

Definition specrefMetadataToJsonld (c : Citation) : JsonLd :=
  mkJsonLd (href (entry c)) (Some "TechArticle") (title (entry c)) (href (entry c)) None
           ((λ l : list string, (λ a, mkCreator None None (Some a) None) <$> l) <$> authors c)
           (if Js.truthyProp (rawDate c) then rawDate c else None)
           (if Js.truthyProp (isbn c) then isbn c else None)
           (if Js.truthyProp (publisher c) then publisher c else None).

(** [identifiers] collects the DOI, and is not used afterwards. *)
Definition crossrefMetadataToJsonld (c : Citation) : JsonLd :=
  let identifiers := if Js.truthyProp (DOI (entry c)) then [DOI (entry c)] else [] in
  mkJsonLd None None (title (entry c)) (URL c) (subtitle c)
           (match author c with
            | Some (a :: l) => Some (crossrefAuthorToJsonld <$> (a :: l))
            | _ => None
            end)
           None None
           (if Js.truthyProp (publisher c) then publisher c else None).

(** [citationMetadataToJsonld(ref)]: [ref.id.startsWith] throws when the
    entry has no [id]. *)
Definition citationMetadataToJsonld (c : Citation) : Completion JsonLd :=
  match id (entry c) with
  | None => Throw (TypeError "ref.id.startsWith")
  | Some i =>
      if Js.startsWith i "doi:" then Normal (crossrefMetadataToJsonld c)
      else Normal (specrefMetadataToJsonld c)
  end.

(** ** Further notions used to state the properties *)

(** The references [getUniqueRefs] keeps: those whose id was not seen. *)
Fixpoint firstsNotIn (seen : list (option string)) (refs : list GoodRef) : list GoodRef :=
  match refs with
  | [] => []
  | r :: refs' =>
      if bool_decide (canonicalId r ∈ seen) then firstsNotIn seen refs'
      else r :: firstsNotIn (seen ++ [canonicalId r]) refs'
  end.

(** The loop body of [getAliases]. *)
Definition aliasStep (aliases : list (option string * list string)) (r : GoodRef) :=
  let key := canonicalId r in
  let aliases := if negb (JsMap.has aliases key) then JsMap.set aliases key []
                 else aliases in
  JsMap.set aliases key (default [] (JsMap.get aliases key) ++ [goodRef r]).

(** The keys [resolveRef] visits from [key], when it settles within
    [fuel] calls. *)
Fixpoint aliasChain (fuel : nat) (store : Biblio) (key : string) : option (list string) :=
  match fuel with
  | O => None
  | S fuel' =>
      match store !! key with
      | None => Some [key]
      | Some e =>
          if Js.truthyProp (aliasOf e)
          then (λ l, key :: l) <$> aliasChain fuel' store (default EmptyString (aliasOf e))
          else Some [key]
      end
  end.


(** A store in which html5 is an alias of HTML, and a world whose pass is
    over. *)
Definition chainStore : Biblio :=
  <["html5" := aliasEntry "HTML"]> (<["HTML" := localHtml]> ∅).

Definition chainWorld : World :=
  mkWorld chainStore Resolved (mkConf ["html5"; "HTML"] [] None) [] [] [].

(** The alias chain of [ref] in [store] ends at [key]. *)
Definition resolvesTo (store : Biblio) (ref key : string) : Prop :=
  ∃ fuel c, aliasChain fuel store ref = Some c ∧ last c = Some key.

(** Authors for the examples. *)
Definition adaLovelace : CrossrefAuthor :=
  mkCrossrefAuthor (Some "Ada") (Some "Lovelace") None None.

Definition consortium : CrossrefAuthor :=
  mkCrossrefAuthor None (Some "W3C") (Some "World Wide Web Consortium") None.

(** The same store as a page: [html5] is an alias of [HTML]; and the page
    once [html5] was resolved: the entry has its [id]. *)
Definition chainPage : Page :=
  mkPage {[EntryObject 1 := aliasEntry "HTML"; EntryObject 2 := localHtml]}
         {["html5" := VObject (EntryObject 1); "HTML" := VObject (EntryObject 2)]} [].

Definition chainPageResolved : Page :=
  mkPage {[EntryObject 1 := aliasEntry "HTML"; EntryObject 2 := setId "html5" localHtml]}
         {["html5" := VObject (EntryObject 1); "HTML" := VObject (EntryObject 2)]} [].

(** The references of a section citing [html5] and [HTML], resolved on
    [chainPage]: both are handed the object of [HTML]. *)
Definition chainRefs : list Ref :=
  [mkRef "html5" (Some (VObject (EntryObject 2)));
   mkRef "HTML" (Some (VObject (EntryObject 2)))].

(** A Crossref work as the renderer receives it, filed under its DOI. *)
Definition doiCitation : Citation :=
  mkCitation (stamped "doi:10.1000/182" doiWork) None None None None
             (Some "https://doi.org/10.1000/182") None None.

(** * Properties *)

Ltac munfold :=
  unfold mbind, mret, M_bind, M_ret, bind, ret, throw, unsettled, tryCatch, log,
    getWorld, setBiblio, setConf, resolveDone, recordAddAll in *.

(** ** Worlds and lists *)

Lemma appendLog_nil w : appendLog [] w = w.
Proof. destruct w. unfold appendLog. simpl. by rewrite app_nil_r. Qed.

Lemma appendLog_app l1 l2 w : appendLog l2 (appendLog l1 w) = appendLog (l1 ++ l2) w.
Proof. unfold appendLog. simpl. by rewrite app_assoc. Qed.

Lemma length_eqb_0 {A} (l : list A) : (length l =? 0)%nat = bool_decide (l = []).
Proof. by destruct l. Qed.

Lemma filter_none {A} (P : A → Prop) `{∀ x, Decision (P x)} (l : list A) :
  (∀ x, x ∈ l → ¬ P x) → filter P l = [].
Proof.
  induction l as [|x l IH]; intros Hl; [done|].
  rewrite filter_cons_False by (apply Hl; left).
  apply IH. intros y Hy. apply Hl. by right.
Qed.

(** ** Strings, sets and sorting *)

Lemma trimEnd_cons_nonblank a s :
  Js.isWhiteSpace a = false → Js.truthy (Js.trimEnd (String a s)) = true.
Proof. intros Ha. simpl. destruct (Js.trimEnd s); [rewrite Ha|]; done. Qed.

(** [ref.trim()] is truthy exactly when [ref] is not blank. *)
Lemma truthy_trim s : Js.truthy (Js.trim s) = negb (blank s).
Proof.
  unfold Js.trim. induction s as [|a s IH]; [done|].
  cbn [Js.trimStart blank]. destruct (Js.isWhiteSpace a) eqn:Ha; [done|].
  by rewrite trimEnd_cons_nonblank.
Qed.

Lemma elem_of_newSet seen l x : x ∈ Js.newSet seen l ↔ x ∈ l ∧ x ∉ seen.
Proof.
  revert seen. induction l as [|y l IH]; intros seen; simpl.
  - rewrite elem_of_nil. naive_solver.
  - case_bool_decide as Hy.
    + rewrite IH, elem_of_cons. naive_solver.
    + rewrite !elem_of_cons, IH, not_elem_of_cons.
      destruct (decide (x = y)); naive_solver.
Qed.

Lemma NoDup_newSet seen l : NoDup (Js.newSet seen l).
Proof.
  revert seen. induction l as [|y l IH]; intros seen; simpl; [constructor|].
  case_bool_decide; [done|]. constructor; [|done].
  rewrite elem_of_newSet, not_elem_of_cons. naive_solver.
Qed.


(** ** The model on small inputs *)

Example trim_example : Js.trim "  RFC 2119  " = "RFC 2119".
Proof. reflexivity. Qed.

Example sort_example : Js.sort ["b"; "a"; "B"; "doi:x"; "a"] = ["B"; "a"; "a"; "b"; "doi:x"].
Proof. reflexivity. Qed.

Example normalize_example :
  informativeReferences
    (Plugin.normalizeReferences (mkConf ["RFC2119"] ["rfc2119"; "HTML5"] None))
  = ["HTML5"].
Proof. reflexivity. Qed.

Example neededRefs_example :
  Plugin.neededRefs (["RFC2119"; "LOCAL"], ["HTML"])
                    {["LOCAL" := localEntry; "html5" := aliasEntry "HTML"]}
                    (Plugin.localAliases {["LOCAL" := localEntry; "html5" := aliasEntry "HTML"]})
  = ["HTML"; "RFC2119"].
Proof. vm_compute. reflexivity. Qed.

Example routes_example :
  specrefIds ["RFC2119"; " "; "doi:10.1000/182"; "RFC2119"] = ["RFC2119"]
  ∧ crossrefIds ["RFC2119"; " "; "doi:10.1000/182"; "RFC2119"] = ["doi:10.1000/182"].
Proof. split; reflexivity. Qed.

Example dedup_example :
  let content := setId "rfc2119" rfc2119 in
  let refs := [mkGoodRef "RFC2119" content; mkGoodRef "rfc2119" content] in
  getUniqueRefs refs = [mkGoodRef "RFC2119" content]
  ∧ getAliases refs = [(Some "rfc2119", ["RFC2119"; "rfc2119"])].
Proof. split; reflexivity. Qed.

(** ** Keys sent to the two adapters *)

(** C10. For every input list there are two lists of keys, each without
    repetition: the non-blank keys of the input that do not start with
    [doi:], and the non-blank keys that do. No key is in both, and every
    non-blank key of the input is in one of them; blank keys are in
    neither. [updateFromNetwork] calls [updateFromSpecref] on the first
    list and then [updateFromCrossref] on the second, and goes on with
    their results. *)
Theorem updateFromNetwork_routes_each_key_once (refs : list string) :
  ∃ toSpecref toCrossref : list string,
    NoDup toSpecref ∧ NoDup toCrossref
    ∧ (∀ k, k ∈ toSpecref ↔ k ∈ refs ∧ blank k = false ∧ Js.startsWith k "doi:" = false)
    ∧ (∀ k, k ∈ toCrossref ↔ k ∈ refs ∧ blank k = false ∧ Js.startsWith k "doi:" = true)
    ∧ (∀ k, k ∈ refs → blank k = false →
            (k ∈ toSpecref ∧ (k ∉ toCrossref)) ∨ ((k ∉ toSpecref) ∧ k ∈ toCrossref))
    ∧ ∀ env options w,
        updateFromNetwork env refs options w
        = (specrefData ← updateFromSpecref env toSpecref options;
           crossrefData ← updateFromCrossref env toCrossref;
           storeBatch env specrefData crossrefData) w.
Proof.
  exists (specrefIds refs), (crossrefIds refs).
  assert (Hs : ∀ k, k ∈ specrefIds refs
                    ↔ k ∈ refs ∧ blank k = false ∧ Js.startsWith k "doi:" = false).
  { intros k. unfold specrefIds, refsToFetch.
    rewrite !list_elem_of_filter, elem_of_newSet, truthy_trim.
    rewrite elem_of_nil. destruct (blank k), (Js.startsWith k "doi:"); naive_solver. }
  assert (Hc : ∀ k, k ∈ crossrefIds refs
                    ↔ k ∈ refs ∧ blank k = false ∧ Js.startsWith k "doi:" = true).
  { intros k. unfold crossrefIds, refsToFetch.
    rewrite !list_elem_of_filter, elem_of_newSet, truthy_trim.
    rewrite elem_of_nil. destruct (blank k), (Js.startsWith k "doi:"); naive_solver. }
  split_and!; [| |done|done| |done].
  - unfold specrefIds, refsToFetch. do 2 apply NoDup_filter. apply NoDup_newSet.
  - unfold crossrefIds, refsToFetch. do 2 apply NoDup_filter. apply NoDup_newSet.
  - intros k Hk Hb. rewrite !Hs, !Hc.
    destruct (Js.startsWith k "doi:"); [right|left]; naive_solver.
Qed.

(** ** Needed keys *)





(** ** De-duplication *)

Section JsMapFacts.
Context {K V : Type} `{EqDecision K}.
Implicit Types (m : list (K * V)) (k : K) (v : V).

Lemma JsMap_get_set m k v k' :
  JsMap.get (JsMap.set m k v) k' = if decide (k' = k) then Some v else JsMap.get m k'.
Proof.
  induction m as [|[k0 v0] m IH]; simpl.
  - case_bool_decide; case_decide; done.
  - case_bool_decide as Hk; simpl.
    + subst k0. case_bool_decide; case_decide; done.
    + rewrite IH. case_bool_decide; case_decide; congruence.
Qed.

Lemma JsMap_get_None m k : JsMap.get m k = None ↔ k ∉ m.*1.
Proof.
  induction m as [|[k0 v0] m IH]; simpl.
  - rewrite elem_of_nil. naive_solver.
  - rewrite not_elem_of_cons. case_bool_decide; naive_solver.
Qed.

Lemma JsMap_has_false m k : JsMap.has m k = false ↔ k ∉ m.*1.
Proof.
  unfold JsMap.has. by rewrite bool_decide_eq_false, <-eq_None_not_Some, JsMap_get_None.
Qed.

Lemma JsMap_set_fresh m k v : k ∉ m.*1 → JsMap.set m k v = m ++ [(k, v)].
Proof.
  induction m as [|[k0 v0] m IH]; simpl; [done|].
  rewrite not_elem_of_cons. intros [Hne Hk]. rewrite bool_decide_eq_false_2 by done.
  by rewrite IH.
Qed.

End JsMapFacts.

Lemma unique_fold (m : list (option string * GoodRef)) refs c :
  (∀ k r, (k, r) ∈ m → canonicalId r = k) →
  filter (λ r, canonicalId r = c) (JsMap.values (foldl uniqueStep m refs)) =
  if decide (c ∈ m.*1) then filter (λ r, canonicalId r = c) (JsMap.values m)
  else option_list (head (filter (λ r, canonicalId r = c) refs)).
Proof.
  revert m. induction refs as [|r refs IH]; intros m Hm; simpl.
  - case_decide as Hc; [done|].
    apply filter_none. intros r Hr <-. apply Hc.
    unfold JsMap.values in Hr. apply list_elem_of_fmap in Hr as [[k r'] [-> Hin]].
    apply list_elem_of_fmap. exists (k, r'). split; [|done].
    simpl. by apply Hm.
  - unfold uniqueStep at 2.
    destruct (JsMap.has m (canonicalId r)) eqn:Hhas; simpl.
    + rewrite IH by done.
      case_decide as Hc; [done|].
      rewrite filter_cons_False; [done|].
      intros <-. apply Hc. apply dec_stable. intros Hn.
      apply JsMap_has_false in Hn. congruence.
    + apply JsMap_has_false in Hhas.
      rewrite JsMap_set_fresh by done.
      rewrite IH.
      2:{ intros k r' [Hin|Hin%list_elem_of_singleton]%elem_of_app; [by apply Hm|].
          by simplify_eq. }
      assert (Hmem : c ∈ (m ++ [(canonicalId r, r)]).*1 ↔ c ∈ m.*1 ∨ c = canonicalId r).
      { rewrite fmap_app, elem_of_app. simpl. by rewrite list_elem_of_singleton. }
      assert (Hvals : filter (λ r0, canonicalId r0 = c)
                             (JsMap.values (m ++ [(canonicalId r, r)]))
                      = filter (λ r0, canonicalId r0 = c) (JsMap.values m)
                        ++ filter (λ r0, canonicalId r0 = c) [r]).
      { unfold JsMap.values. by rewrite fmap_app, filter_app. }
      rewrite Hvals. clear Hvals.
      destruct (decide (canonicalId r = c)) as [Heq|Hne].
      * subst c. rewrite decide_True by (apply Hmem; by right).
        rewrite decide_False by done.
        rewrite !(filter_cons_True _ r) by done. rewrite filter_nil. simpl.
        rewrite (filter_none _ (JsMap.values m)); [done|].
        intros r' Hr' Hid. apply Hhas.
        apply list_elem_of_fmap in Hr' as [[k r''] [-> Hin]].
        apply list_elem_of_fmap. exists (k, r''). split; [|done].
        simpl in *. rewrite <-Hid. by apply Hm.
      * rewrite !(filter_cons_False _ r) by done. rewrite filter_nil, app_nil_r.
        destruct (decide (c ∈ m.*1)) as [Hc|Hc].
        -- by rewrite decide_True by (apply Hmem; by left).
        -- rewrite decide_False; [done|]. rewrite Hmem. naive_solver.
Qed.

Lemma aliases_fold (m : list (option string * list string)) refs c :
  JsMap.get
    (foldl (λ aliases r,
              let key := canonicalId r in
              let aliases := if negb (JsMap.has aliases key) then JsMap.set aliases key []
                             else aliases in
              JsMap.set aliases key (default [] (JsMap.get aliases key) ++ [goodRef r]))
           m refs) c =
  match goodRef <$> filter (λ r, canonicalId r = c) refs with
  | [] => JsMap.get m c
  | l => Some (default [] (JsMap.get m c) ++ l)
  end.
Proof.
  revert m. induction refs as [|r refs IH]; intros m; [done|].
  cbn [foldl]. rewrite IH. clear IH. cbn zeta.
  set (m1 := if negb (JsMap.has m (canonicalId r)) then _ else m).
  assert (Hm1 : default [] (JsMap.get m1 (canonicalId r))
                = default [] (JsMap.get m (canonicalId r))).
  { subst m1. unfold JsMap.has. case_bool_decide as Hs; simpl; [done|].
    rewrite JsMap_get_set, decide_True by done.
    apply eq_None_not_Some in Hs. by rewrite Hs. }
  assert (Hm1' : ∀ k, k ≠ canonicalId r → JsMap.get m1 k = JsMap.get m k).
  { intros k Hk. subst m1. destruct (negb _); [|done].
    by rewrite JsMap_get_set, decide_False. }
  rewrite JsMap_get_set, Hm1.
  destruct (decide (canonicalId r = c)) as [Heq|Hne].
  - subst c. rewrite decide_True by done.
    rewrite filter_cons_True by done. rewrite fmap_cons. simpl.
    destruct (goodRef <$> filter _ refs) as [|x l]; simpl; [done|].
    by rewrite <-app_assoc.
  - rewrite decide_False by done. rewrite filter_cons_False by done.
    by rewrite Hm1'.
Qed.

(** C7. For every list of good references and every canonical id [c]:
    the entries of [getUniqueRefs refs] with id [c] are exactly the
    earliest element of [refs] with id [c] (none when no element has that
    id), and [getAliases refs] maps [c] to the keys of all elements of
    [refs] with id [c], the kept one included, in input order. *)
Theorem first_key_kept_all_keys_aliased (refs : list GoodRef) (c : option string) :
  filter (λ r, canonicalId r = c) (getUniqueRefs refs)
    = option_list (head (filter (λ r, canonicalId r = c) refs))
  ∧ JsMap.get (getAliases refs) c
    = match filter (λ r, canonicalId r = c) refs with
      | [] => None
      | l => Some (goodRef <$> l)
      end.
Proof.
  split.
  - unfold getUniqueRefs. fold uniqueStep.
    rewrite unique_fold; [|by intros ?? ?%elem_of_nil].
    rewrite decide_False; [done|]. simpl. apply not_elem_of_nil.
  - unfold getAliases. rewrite aliases_fold. simpl.
    by destruct (filter _ refs).
Qed.

(** ** The adapters *)

Lemma updateFromSpecref_outcome env refs options w :
  ∃ logs, (updateFromSpecref env refs options w).2 = appendLog logs w ∧
  match (updateFromSpecref env refs options w).1 with
  | Normal _ => ¬ specrefBodyUnparsed env refs
  | Throw e => e = SyntaxError ∧ specrefBodyUnparsed env refs
  | Unsettled => False
  end.
Proof.
  unfold updateFromSpecref, specrefBodyUnparsed. rewrite length_eqb_0.
  case_bool_decide as Hrefs; simpl.
  { exists []. rewrite appendLog_nil. naive_solver. }
  destruct (onLine env) eqn:Hon; simpl.
  2:{ exists []. rewrite appendLog_nil. naive_solver. }
  destruct (fetchSpecref env _) as [err|r] eqn:Hf.
  { exists [ErrorObject err]. munfold. simpl. split; [done|]. naive_solver. }
  destruct (_ || _) eqn:Hst; simpl.
  { exists []. rewrite appendLog_nil. split; [done|].
    intros (_ & _ & r' & ? & Hs & _). simplify_eq.
    unfold ok in Hst. rewrite Hs in Hst. simpl in Hst. by destruct (forceUpdate options). }
  apply orb_false_iff in Hst as [_ Hst]. apply negb_false_iff, Z.eqb_eq in Hst.
  destruct (json r) eqn:Hj; munfold; simpl.
  - exists []. rewrite appendLog_nil. split; [done|]. naive_solver.
  - exists []. rewrite appendLog_nil. split; [done|]. split; [done|]. eauto 10.
Qed.

Lemma collectWork_spec collector item w :
  collectWork collector (ItemWork item) w =
  match crossrefKey item with
  | Some k => (Normal (<[k := stamped k item]> collector), w)
  | None => (Normal collector, appendLog [invalidDoiLog] w)
  end.
Proof.
  unfold collectWork, crossrefKey, Js.truthyProp.
  destruct (DOI item) as [d|]; [destruct (Js.truthy d)|]; done.
Qed.

(** The [reduce] over any items: it throws at the first [null]; without
    one it files the works. *)
Lemma reduce_collectWork_items items init w :
  ∃ logs,
    reduce collectWork items init w =
    (if bool_decide (ItemNull ∈ items) then Throw (TypeError "item.DOI")
     else Normal (collected (omap asWork items) init),
     appendLog logs w).
Proof.
  revert init w. induction items as [|item items IH]; intros init w; cbn [reduce].
  - exists []. by rewrite appendLog_nil.
  - unfold mbind, M_bind, bind at 1.
    assert (Hnull : item ≠ ItemNull →
              bool_decide (ItemNull ∈ item :: items) = bool_decide (ItemNull ∈ items)).
    { intros Hne. apply bool_decide_ext. rewrite elem_of_cons. naive_solver. }
    destruct item as [| |work].
    + exists []. rewrite appendLog_nil, bool_decide_eq_true_2 by left. done.
    + destruct (IH init (appendLog [invalidDoiLog] w)) as (logs & Hrest).
      exists ([invalidDoiLog] ++ logs). rewrite <-appendLog_app, Hnull by done.
      change (collectWork init ItemOther w) with (Normal init, appendLog [invalidDoiLog] w).
      cbv beta iota. by rewrite Hrest.
    + rewrite collectWork_spec, Hnull by done.
      change (omap asWork (ItemWork work :: items)) with (work :: omap asWork items).
      unfold collected at 1. cbn [foldl]. fold (collected (omap asWork items)).
      destruct (crossrefKey work) as [k|] eqn:Hk.
      * destruct (IH (<[k := stamped k work]> init) w) as (logs & Hrest).
        exists logs. cbv beta iota. by rewrite Hrest.
      * destruct (IH init (appendLog [invalidDoiLog] w)) as (logs & Hrest).
        exists ([invalidDoiLog] ++ logs). cbv beta iota.
        by rewrite <-appendLog_app, Hrest.
Qed.

Lemma reduce_collectWork items init w :
  reduce collectWork (ItemWork <$> items) init w =
  (Normal (collected items init),
   appendLog ((λ _, invalidDoiLog) <$> filter (λ item, crossrefKey item = None) items) w).
Proof.
  revert init w. induction items as [|item items IH]; intros init w;
    rewrite ?fmap_cons; cbn [reduce].
  - by rewrite filter_nil, appendLog_nil.
  - munfold. rewrite collectWork_spec.
    destruct (crossrefKey item) as [k|] eqn:Hk.
    + rewrite IH. unfold collected. cbn [foldl]. rewrite Hk.
      by rewrite filter_cons_False by congruence.
    + rewrite IH, appendLog_app. unfold collected. cbn [foldl]. rewrite Hk.
      by rewrite filter_cons_True by done.
Qed.

Lemma lookup_collected items init key :
  collected items init !! key =
  match last (filter (λ item, crossrefKey item = Some key) items) with
  | Some item => Some (stamped key item)
  | None => init !! key
  end.
Proof.
  revert init. induction items as [|item items IH]; intros init; [done|].
  unfold collected in *. cbn [foldl]. rewrite IH. clear IH.
  destruct (decide (crossrefKey item = Some key)) as [Hk|Hk].
  - rewrite filter_cons_True by done. rewrite last_cons, Hk.
    destruct (last _); [done|]. by rewrite lookup_insert_eq.
  - rewrite filter_cons_False by done.
    destruct (last _); [done|].
    destruct (crossrefKey item) as [k|]; [|done].
    rewrite lookup_insert_ne; [done|congruence].
Qed.

Lemma updateFromCrossref_outcome env refs w :
  ∃ logs, (updateFromCrossref env refs w).2 = appendLog logs w ∧
  match (updateFromCrossref env refs w).1 with
  | Normal _ => ¬ crossrefBodyUnusable env refs
  | Throw e => (e = SyntaxError ∨ e = TypeError "data.message.items")
               ∧ crossrefBodyUnusable env refs
               ∨ e = TypeError "item.DOI" ∧ ¬ crossrefBodyUnusable env refs
  | Unsettled => False
  end.
Proof.
  unfold updateFromCrossref, crossrefBodyUnusable. rewrite length_eqb_0.
  case_bool_decide as Hrefs; simpl.
  { exists []. rewrite appendLog_nil. naive_solver. }
  destruct (onLine env) eqn:Hon; simpl.
  2:{ exists []. rewrite appendLog_nil. naive_solver. }
  destruct (fetchCrossref env _) as [err|r] eqn:Hf.
  { exists [ErrorObject err]. munfold. simpl. split; [done|]. naive_solver. }
  destruct (json r) as [[[items|]]|] eqn:Hj; simpl.
  - munfold. destruct (reduce_collectWork_items items ∅ w) as (logs & ->).
    exists logs. unfold mkCrossrefData.
    case_bool_decide; simpl; (split; [done|]); naive_solver.
  - munfold. exists []. rewrite appendLog_nil. split; [done|]. left.
    split; [by right|]. eauto 10.
  - munfold. exists []. rewrite appendLog_nil. split; [done|]. left.
    split; [by left|]. eauto 10.
Qed.

(** C8. Whatever the forced-update flag, a Specref response whose status
    is not 200 makes [updateFromSpecref] return [null], and nothing else
    happens. *)
Theorem specref_non200_yields_null env refs options w r :
  fetchSpecref env (bibrefsURL +:+ Js.join "," refs) = Fulfilled r →
  status r ≠ 200 →
  updateFromSpecref env refs options w = (Normal None, w).
Proof.
  intros Hf Hs. unfold updateFromSpecref.
  destruct (_ || _); [done|]. rewrite Hf.
  apply Z.eqb_neq in Hs. rewrite Hs. simpl. by rewrite orb_true_r.
Qed.

Lemma specref_non200_yields_null_witness :
  fetchSpecref notFoundEnv (bibrefsURL +:+ Js.join "," ["RFC2119"])
    = Fulfilled (mkResponse 404 [] (Some ∅))
  ∧ updateFromSpecref notFoundEnv ["RFC2119"] (mkOptions true) emptyWorld
    = (Normal None, emptyWorld).
Proof.
  split; [reflexivity|].
  apply (specref_non200_yields_null notFoundEnv ["RFC2119"] (mkOptions true) emptyWorld
           (mkResponse 404 [] (Some ∅))); [reflexivity|].
  simpl. lia.
Defined.

Lemma specref_guard options (r : Response Biblio) :
  (negb (forceUpdate options) && negb (ok r)) || negb (status r =? 200)
  = negb (status r =? 200).
Proof.
  destruct (status r =? 200) eqn:Hs; [|by rewrite orb_true_r].
  apply Z.eqb_eq in Hs. unfold ok. rewrite Hs. cbn. by rewrite andb_false_r.
Qed.

(** C4, as the code has it. Neither adapter hangs, and what it does is
    decided by the situation it is in.
    [updateFromSpecref] returns [null] exactly when the request is not
    made (no key, offline), is rejected, or is answered with a status
    other than 200; it returns a mapping exactly when the answer has
    status 200 and a body that parses, and the mapping is the parsed
    body; it throws exactly when the answer has status 200 and a body
    that is not JSON, and what it throws is the [SyntaxError] of
    [response.json()].
    [updateFromCrossref] returns [null] exactly when the request is not
    made or is rejected; it returns a mapping exactly when the body has a
    [message.items] array without [null], and the mapping files the works
    of the array; it throws exactly when the body is not JSON
    ([SyntaxError]), has no [message.items] array, or has [null] among
    the items (a [TypeError] each). *)
Theorem adapters_throw_exactly_on_malformed_bodies env refs options w :
  let specref := (updateFromSpecref env refs options w).1 in
  let crossref := (updateFromCrossref env refs w).1 in
  (specref = Normal None ↔ specrefNoAnswer env refs)
  ∧ (∀ data, specref = Normal (Some data) ↔ specrefAnswer env refs data)
  ∧ (∀ e, specref = Throw e ↔ e = SyntaxError ∧ specrefBodyUnparsed env refs)
  ∧ specref ≠ Unsettled
  ∧ (crossref = Normal None ↔ crossrefNoAnswer env refs)
  ∧ (∀ m, crossref = Normal (Some m) ↔
          ∃ items, crossrefAnswer env refs (Some (mkCrossrefBody (Some items)))
                   ∧ (ItemNull ∉ items) ∧ m = collected (omap asWork items) ∅)
  ∧ (∀ e, crossref = Throw e ↔
          e = SyntaxError ∧ crossrefAnswer env refs None
          ∨ e = TypeError "data.message.items"
            ∧ crossrefAnswer env refs (Some (mkCrossrefBody None))
          ∨ e = TypeError "item.DOI"
            ∧ ∃ items, crossrefAnswer env refs (Some (mkCrossrefBody (Some items)))
                       ∧ ItemNull ∈ items)
  ∧ crossref ≠ Unsettled.
Proof.
  cbv zeta.
  assert (Hspecref :
    (updateFromSpecref env refs options w).1 =
    if bool_decide (refs = []) || negb (onLine env) then Normal None
    else match fetchSpecref env (bibrefsURL +:+ Js.join "," refs) with
         | Rejected _ => Normal None
         | Fulfilled r =>
             if status r =? 200
             then match json r with Some data => Normal (Some data) | None => Throw SyntaxError end
             else Normal None
         end).
  { unfold updateFromSpecref. rewrite length_eqb_0. destruct (_ || _); [done|].
    destruct (fetchSpecref env _) as [err|r]; [done|]. rewrite specref_guard.
    destruct (status r =? 200); [|done]. by destruct (json r). }
  assert (Hcrossref :
    (updateFromCrossref env refs w).1 =
    if bool_decide (refs = []) || negb (onLine env) then Normal None
    else match fetchCrossref env (crossrefURL +:+ Js.join "," refs) with
         | Rejected _ => Normal None
         | Fulfilled r =>
             match json r with
             | None => Throw SyntaxError
             | Some (mkCrossrefBody None) => Throw (TypeError "data.message.items")
             | Some (mkCrossrefBody (Some items)) =>
                 if bool_decide (ItemNull ∈ items) then Throw (TypeError "item.DOI")
                 else Normal (Some (collected (omap asWork items) ∅))
             end
         end).
  { unfold updateFromCrossref. rewrite length_eqb_0. destruct (_ || _); [done|].
    destruct (fetchCrossref env _) as [err|r]; [done|].
    destruct (json r) as [[[items|]]|]; [|done..]. cbn [messageItems]. munfold.
    destruct (reduce_collectWork_items items ∅ w) as (logs & ->).
    by case_bool_decide. }
  rewrite Hspecref, Hcrossref. clear Hspecref Hcrossref.
  unfold specrefNoAnswer, specrefAnswer, specrefBodyUnparsed, crossrefNoAnswer, crossrefAnswer.
  case_bool_decide as Hrefs; cbn [orb].
  { split_and!; naive_solver. }
  destruct (onLine env) eqn:Hon; cbn [negb].
  2:{ split_and!; naive_solver. }
  split_and!.
  - destruct (fetchSpecref env _) as [err|r]; [naive_solver|].
    destruct (status r =? 200) eqn:Hs;
      [apply Z.eqb_eq in Hs|apply Z.eqb_neq in Hs]; [|naive_solver].
    destruct (json r) eqn:Hj; naive_solver.
  - intros data. destruct (fetchSpecref env _) as [err|r]; [naive_solver|].
    destruct (status r =? 200) eqn:Hs;
      [apply Z.eqb_eq in Hs|apply Z.eqb_neq in Hs]; [|naive_solver].
    destruct (json r) eqn:Hj; naive_solver.
  - intros e. destruct (fetchSpecref env _) as [err|r]; [naive_solver|].
    destruct (status r =? 200) eqn:Hs;
      [apply Z.eqb_eq in Hs|apply Z.eqb_neq in Hs]; [|naive_solver].
    destruct (json r) eqn:Hj; naive_solver.
  - destruct (fetchSpecref env _) as [err|r]; [done|].
    destruct (status r =? 200); [|done]. by destruct (json r).
  - destruct (fetchCrossref env _) as [err|r]; [naive_solver|].
    destruct (json r) as [[[items|]]|] eqn:Hj; [case_bool_decide|..]; naive_solver.
  - intros m. destruct (fetchCrossref env _) as [err|r]; [naive_solver|].
    destruct (json r) as [[[items|]]|] eqn:Hj; [case_bool_decide|..]; naive_solver.
  - intros e. destruct (fetchCrossref env _) as [err|r]; [naive_solver|].
    destruct (json r) as [[[items|]]|] eqn:Hj; [case_bool_decide|..]; naive_solver.
  - destruct (fetchCrossref env _) as [err|r]; [done|].
    destruct (json r) as [[[items|]]|]; [case_bool_decide|..]; done.
Qed.

(** C4 fails as stated: on a 200 response whose body is not JSON the
    Specref adapter throws instead of returning a mapping or [null]. *)
Lemma updateFromSpecref_throws_on_unparsed_body :
  updateFromSpecref malformedEnv ["RFC2119"] (mkOptions false) emptyWorld
  = (Throw SyntaxError, emptyWorld).
Proof. reflexivity. Qed.

Lemma crossrefKey_Some item key :
  crossrefKey item = Some key ↔
  ∃ d, DOI item = Some d ∧ d ≠ EmptyString ∧ key = "doi:" +:+ d.
Proof.
  unfold crossrefKey. destruct (DOI item) as [[|a d]|]; simpl; naive_solver.
Qed.

Lemma crossrefKey_None item :
  crossrefKey item = None ↔ DOI item = None ∨ DOI item = Some EmptyString.
Proof.
  unfold crossrefKey. destruct (DOI item) as [[|a d]|]; simpl; naive_solver.
Qed.

(** C9, as the code has it. When Crossref answers with a [message.items]
    array, the adapter returns a mapping [m] such that, for every key,
    [m] binds the key to the last item filed under it ([doi:] followed by
    the item's non-empty DOI), with [id] set to the key and [reference]
    removed, and binds nothing when no item is filed under the key. An
    item whose DOI is missing or empty is filed under no key and costs one
    logged error. *)
Theorem crossref_result_is_keyed_by_nonempty_doi env refs w r items :
  refs ≠ [] →
  onLine env = true →
  fetchCrossref env (crossrefURL +:+ Js.join "," refs) = Fulfilled r →
  json r = Some (mkCrossrefData (Some items)) →
  ∃ m w',
    updateFromCrossref env refs w = (Normal (Some m), w')
    ∧ (∀ key, m !! key
              = stamped key <$> last (filter (λ item, crossrefKey item = Some key) items))
    ∧ console w'
      = console w ++ ((λ _, invalidDoiLog) <$> filter (λ item, crossrefKey item = None) items).
Proof.
  intros Hrefs Hon Hf Hj. unfold updateFromCrossref.
  rewrite length_eqb_0, bool_decide_eq_false_2, Hon, Hf, Hj by done. simpl.
  munfold. rewrite reduce_collectWork. do 2 eexists. split; [done|]. split; [|done].
  intros key. rewrite lookup_collected, lookup_empty. by destruct (last _).
Qed.

Lemma crossref_result_is_keyed_by_nonempty_doi_witness :
  ∃ m w',
    updateFromCrossref (crossrefEnv [doiWork; noDoiWork; emptyDoiWork])
                       ["doi:10.1000/182"; "doi:10.1000/999"] emptyWorld
    = (Normal (Some m), w')
    ∧ (∀ key, m !! key
              = stamped key <$> last (filter (λ item, crossrefKey item = Some key)
                                             [doiWork; noDoiWork; emptyDoiWork]))
    ∧ console w'
      = console emptyWorld
        ++ ((λ _, invalidDoiLog) <$> filter (λ item, crossrefKey item = None)
                                            [doiWork; noDoiWork; emptyDoiWork]).
Proof.
  apply (crossref_result_is_keyed_by_nonempty_doi
           (crossrefEnv [doiWork; noDoiWork; emptyDoiWork])
           ["doi:10.1000/182"; "doi:10.1000/999"] emptyWorld
           (mkResponse 200 [] (Some (mkCrossrefData (Some [doiWork; noDoiWork; emptyDoiWork]))))
           [doiWork; noDoiWork; emptyDoiWork]);
    [discriminate | reflexivity | reflexivity | reflexivity].
Defined.

(** C9 fails as stated: an item that has a DOI field, holding the empty
    string, is not in the result under [doi:] followed by its DOI. *)
Lemma crossref_empty_doi_is_dropped :
  DOI emptyDoiWork = Some EmptyString
  ∧ ∃ m, updateFromCrossref (crossrefEnv [emptyDoiWork]) ["doi:10.1000/182"] emptyWorld
         = (Normal (Some m), appendLog [invalidDoiLog] emptyWorld)
         ∧ m !! ("doi:" +:+ EmptyString) = None.
Proof. split; [reflexivity|]. exists ∅. split; reflexivity. Qed.

(** A [null] among the items makes the adapter throw, after the error
    logged for the item before it. *)
Example updateFromCrossref_throws_on_null_item :
  let env := mkEnv true 1700000000000 (λ _, Rejected NetworkError)
               (λ _, Fulfilled (mkResponse 200 []
                       (Some (mkCrossrefBody (Some [ItemWork noDoiWork; ItemNull;
                                                    ItemWork doiWork])))))
               (λ _, None) true (λ _, FindYields None) true [] in
  updateFromCrossref env ["doi:10.1000/182"] emptyWorld
  = (Throw (TypeError "item.DOI"), appendLog [invalidDoiLog] emptyWorld).
Proof. reflexivity. Qed.

(** ** updateFromNetwork *)

(** The policy lines 57-59 spell out, had [response] and [oneHourFromNow]
    been in scope. *)
Lemma expiresOf_policy env r oneHourFromNow :
  expiresOf env r oneHourFromNow =
  match headersGet (headers r) "Expires" with
  | Some v => match dateParse env v with
              | Some t => Some (Z.min t oneHourFromNow)
              | None => None
              end
  | None => Some oneHourFromNow
  end.
Proof. unfold expiresOf, mathMin. by repeat case_match. Qed.

(** In a page that defines no global [response], reading it throws. *)
Lemma identifier_response env w :
  lookupBinding (pageGlobals env) "response" = None →
  identifier (updateFromNetworkScope env) "response" w
  = (Throw (ReferenceError "response"), w).
Proof.
  intros Hpage. unfold identifier, updateFromNetworkScope.
  cbn. by rewrite Hpage.
Qed.

(** The two adapters in sequence, as [updateFromNetwork] calls them. *)
Lemma adapters_outcome env refs options w :
  ∃ logs,
    match updateFromSpecref env (specrefIds refs) options w with
    | (Normal specrefData, w1) =>
        ¬ specrefBodyUnparsed env (specrefIds refs) ∧
        match updateFromCrossref env (crossrefIds refs) w1 with
        | (Normal crossrefData, w2) =>
            ¬ crossrefBodyUnusable env (crossrefIds refs) ∧ w2 = appendLog logs w
        | (Throw e, w2) =>
            ((e = SyntaxError ∨ e = TypeError "data.message.items")
             ∨ e = TypeError "item.DOI" ∧ ¬ crossrefBodyUnusable env (crossrefIds refs))
            ∧ w2 = appendLog logs w
        | (Unsettled, _) => False
        end
    | (Throw e, w1) => e = SyntaxError ∧ w1 = appendLog logs w
    | (Unsettled, _) => False
    end.
Proof.
  destruct (updateFromSpecref_outcome env (specrefIds refs) options w) as (l1 & Hw1 & H1).
  destruct (updateFromSpecref env (specrefIds refs) options w) as [[d1|e1|] w1];
    cbn [fst snd] in *; subst; [|naive_solver..].
  destruct (updateFromCrossref_outcome env (crossrefIds refs) (appendLog l1 w))
    as (l2 & Hw2 & H2).
  destruct (updateFromCrossref env (crossrefIds refs) (appendLog l1 w)) as [[d2|e2|] w2];
    cbn [fst snd] in *; subst; [| |done].
  - exists (l1 ++ l2). by rewrite appendLog_app.
  - exists (l1 ++ l2). rewrite appendLog_app. naive_solver.
Qed.


(** In a page that defines no global [response], [updateFromNetwork]
    never returns: when both adapters return, reading [response] throws.
    Only the console has changed; nothing is written to the cache. *)
Lemma updateFromNetwork_throws env refs options w :
  lookupBinding (pageGlobals env) "response" = None →
  ∃ e logs, updateFromNetwork env refs options w = (Throw e, appendLog logs w).
Proof.
  intros Hpage. unfold updateFromNetwork.
  destruct (adapters_outcome env refs options w) as (logs & H).
  unfold mbind, M_bind, bind at 1.
  destruct (updateFromSpecref env (specrefIds refs) options w) as [[d1|e1|] w1];
    [|naive_solver..].
  destruct H as [H1 H]. unfold bind at 1.
  destruct (updateFromCrossref env (crossrefIds refs) w1) as [[d2|e2|] w2];
    [|naive_solver..].
  destruct H as [H2 ->]. unfold bind at 1. rewrite identifier_response by done. eauto.
Qed.

(** C2, at the failing input. Specref answers 200 with one entry and an
    [Expires] header half an hour ahead. The policy of lines 57-59 would
    stamp the batch with that time, the minimum of [Expires] and one hour
    from now. But [updateFromNetwork] throws a [ReferenceError] on
    [response] and leaves the world unchanged: nothing is written to the
    cache, with or without expiry. *)
Theorem updateFromNetwork_fresh_batch_not_stamped :
  let response := mkResponse 200 [("Expires", "Tue, 14 Nov 2023 22:43:20 GMT")]
                             (Some ({["RFC2119" := rfc2119]} : Biblio)) in
  fetchSpecref freshEnv (bibrefsURL +:+ Js.join "," (specrefIds ["RFC2119"]))
    = Fulfilled response
  ∧ expiresOf freshEnv response (now freshEnv + 1000 * 60 * 60 * 1)
    = Some (Z.min 1700001800000 (now freshEnv + 3600000))
  ∧ updateFromNetwork freshEnv ["RFC2119"] (mkOptions true) emptyWorld
    = (Throw (ReferenceError "response"), emptyWorld)
  ∧ idbWrites (updateFromNetwork freshEnv ["RFC2119"] (mkOptions true) emptyWorld).2 = [].
Proof.
  cbv zeta. split_and!.
  - reflexivity.
  - rewrite expiresOf_policy. reflexivity.
  - vm_compute. reflexivity.
  - vm_compute. reflexivity.
Qed.

(** ** The resolution pass *)

Lemma findAll_reduce env l acc w :
  reduce (λ acc id,
            match idbFind env id with
            | FindRejects => throw IdbError
            | FindYields data => mret (acc ++ [(id, data)])
            end) l acc w =
  if forallb (findOk env) l then (Normal (acc ++ ((λ id, (id, findData env id)) <$> l)), w)
  else (Throw IdbError, w).
Proof.
  revert acc. induction l as [|id l IH]; intros acc; cbn [reduce forallb].
  - by rewrite app_nil_r.
  - munfold. rewrite fmap_cons. unfold findOk at 1, findData at 1.
    destruct (idbFind env id) eqn:Hf; cbn [andb]; [done|].
    rewrite IH. destruct (forallb _ l); [|done]. by rewrite <-app_assoc.
Qed.

(** [getReferencesFromIdb] always returns: a failing cache turns every
    key into a miss and leaves a warning. *)
Lemma getReferencesFromIdb_spec env needed w :
  getReferencesFromIdb env needed w =
  (Normal (idbRefsOf env needed), appendLog (idbLogs env needed) w).
Proof.
  unfold getReferencesFromIdb, findAll, idbRefsOf, idbLogs, cacheUp, tryCatch.
  destruct (idbReady env); cbn.
  - rewrite findAll_reduce. destruct (forallb _ _); [by rewrite appendLog_nil|done].
  - done.
Qed.

Lemma idbRefsOf_nil env : idbRefsOf env [] = [].
Proof. unfold idbRefsOf. by destruct (cacheUp env []). Qed.

(** When the cache answers and holds every needed key, nothing is left to
    fetch; when the cache fails, every needed key is. *)
Lemma externalRefsOf_all_hits env w :
  idbReady env = true →
  (∀ k, k ∈ neededOf w → ∃ d, idbFind env k = FindYields (Some d)) →
  externalRefsOf env w = [].
Proof.
  intros Hready Hhits. unfold externalRefsOf, idbRefsOf, cacheUp. rewrite Hready. simpl.
  assert (Hok : forallb (findOk env) (neededOf w) = true).
  { apply forallb_forall. intros k Hk%list_elem_of_In.
    destruct (Hhits k Hk) as [d Hd]. unfold findOk. by rewrite Hd. }
  rewrite Hok. rewrite filter_none; [done|].
  intros [k d] Hin. apply list_elem_of_fmap in Hin as (k' & [= -> ->] & Hk').
  destruct (Hhits k' Hk') as [d Hd]. unfold findData. by rewrite Hd.
Qed.

Lemma externalRefsOf_cache_down env w :
  idbReady env = false → externalRefsOf env w = neededOf w.
Proof.
  intros Hready. unfold externalRefsOf, idbRefsOf, cacheUp. rewrite Hready. simpl.
  induction (neededOf w) as [|k l IH]; [done|].
  rewrite fmap_cons, filter_cons_True by done. rewrite fmap_cons. simpl. by rewrite IH.
Qed.

(** [Plugin.run], stage by stage. *)
Lemma run_cache_phase env w :
  Plugin.run env w =
  if bool_decide (externalRefsOf env w = []) then (Normal tt, settled env w)
  else
    match updateFromNetwork env (externalRefsOf env w) (mkOptions true) (afterCache env w) with
    | (Normal data, w') =>
        (Normal tt,
         mkWorld (assign (assign (biblio w') data) (localOf w)) Resolved (conf w') (console w')
                 (idbWrites w') (shownErrors w'))
    | (Throw e, w') => (Throw e, w')
    | (Unsettled, w') => (Unsettled, w')
    end.
Proof.
  unfold Plugin.run, externalRefsOf, settled, afterCache, neededOf, confAfter, localOf.
  munfold. cbn [conf biblio done console idbWrites shownErrors].
  set (local := default ∅ (localBiblio (conf w))).
  set (c1 := Plugin.normalizeReferences _).
  set (needed := Plugin.neededRefs _ _ _).
  rewrite length_eqb_0.
  assert (Hphase : ∀ w1,
    (if bool_decide (needed = []) then λ w0, (Normal [], w0)
     else getReferencesFromIdb env needed) w1
    = (Normal (idbRefsOf env needed),
       appendLog (if bool_decide (needed = []) then [] else idbLogs env needed) w1)).
  { intros w1. case_bool_decide as Hn.
    - by rewrite Hn, idbRefsOf_nil, appendLog_nil.
    - by rewrite getReferencesFromIdb_spec. }
  rewrite Hphase. clear Hphase. unfold appendLog.
  cbn [biblio done conf console idbWrites shownErrors].
  rewrite length_eqb_0.
  case_bool_decide as Hext; [done|].
  destruct (updateFromNetwork _ _ _ _) as [[data|e|] w']; done.
Qed.



Lemma assign_lookup_source (target source : Biblio) k v :
  source !! k = Some v → assign target source !! k = Some v.
Proof. intros H. unfold assign. by apply lookup_union_Some_l. Qed.

(** C5. When a pass completes, the store holds, for every key of the
    local-override table, the override's value, whatever the store, the
    cache or the network supplied for that key. *)
Theorem overrides_take_precedence env w w' local k v :
  Plugin.run env w = (Normal tt, w') →
  localBiblio (conf w) = Some local →
  local !! k = Some v →
  biblio w' !! k = Some v.
Proof.
  intros Hrun Hlocal Hk.
  assert (HlocalOf : localOf w !! k = Some v) by (unfold localOf; by rewrite Hlocal).
  rewrite run_cache_phase in Hrun. case_bool_decide.
  - simplify_eq. unfold settled. cbn [biblio]. by apply assign_lookup_source.
  - destruct (updateFromNetwork _ _ _ _) as [[data|e|] w1]; simplify_eq.
    cbn [biblio]. by apply assign_lookup_source.
Qed.

Lemma overrides_take_precedence_witness :
  biblio staleWorld !! "HTML" = Some staleHtml
  ∧ biblio (Plugin.run cachedEnv staleWorld).2 !! "HTML" = Some localHtml.
Proof.
  split; [reflexivity|].
  apply (overrides_take_precedence cachedEnv staleWorld (Plugin.run cachedEnv staleWorld).2
           {["HTML" := localHtml]} "HTML" localHtml);
    [vm_compute; reflexivity | reflexivity | reflexivity].
Defined.




(** ** Alias walks *)

(** A call of [resolveRef] that settles within some number of calls
    settles the same way within any larger number. *)
Lemma resolveRef_more_fuel fuel fuel' key w r w' :
  (fuel ≤ fuel')%nat →
  resolveRef fuel key w = (Normal r, w') →
  resolveRef fuel' key w = (Normal r, w').
Proof.
  revert fuel' key.
  induction fuel as [|fuel IH]; intros fuel' key Hle; [done|].
  destruct fuel' as [|fuel']; [lia|].
  cbn [resolveRef]. unfold mbind, M_bind, bind, awaitDone.
  destruct (done w); [done|].
  destruct (biblio w !! key) as [e|]; [|done].
  destruct (Js.truthyProp (aliasOf e)); [|done].
  apply IH. lia.
Qed.

Lemma cycleStore_A : cycleStore !! "A" = Some (aliasEntry "B").
Proof. unfold cycleStore. by rewrite lookup_insert_eq. Qed.

Lemma cycleStore_B : cycleStore !! "B" = Some (aliasEntry "A").
Proof. unfold cycleStore. rewrite lookup_insert_ne by done. by rewrite lookup_insert_eq. Qed.

(** C1, at the failing input. On the chain A -> B -> A, with [done]
    resolved, [resolveRef("A")] is still unsettled after any number of
    calls: it neither returns [null] nor reports anything. *)
Theorem resolveRef_never_settles_on_cycle (fuel : nat) :
  resolveRef fuel "A" cycleWorld = (Unsettled, cycleWorld).
Proof.
  enough (resolveRef fuel "A" cycleWorld = (Unsettled, cycleWorld)
          ∧ resolveRef fuel "B" cycleWorld = (Unsettled, cycleWorld)) by tauto.
  induction fuel as [|fuel [IHA IHB]]; [done|].
  cbn [resolveRef]. unfold mbind, M_bind, bind, awaitDone.
  change (done cycleWorld) with Resolved. change (biblio cycleWorld) with cycleStore.
  cbv beta iota. rewrite cycleStore_A, cycleStore_B. simpl.
  by rewrite IHA, IHB.
Qed.

(** * Further properties *)

(** ** Normalisation *)

Lemma foldl_setDelete (l redundant : list string) :
  foldl (λ s redundantKey, Plugin.setDelete redundantKey s) l redundant
  = filter (λ x, x ∉ redundant) l.
Proof.
  revert l. induction redundant as [|r rs IH]; intros l; cbn [foldl].
  - induction l as [|x l IHl]; [done|].
    rewrite filter_cons. rewrite decide_True by apply not_elem_of_nil. by f_equal.
  - rewrite IH. unfold Plugin.setDelete. rewrite list_filter_filter.
    apply list_filter_iff. intros x. rewrite not_elem_of_cons. tauto.
Qed.

Lemma filter_ext_elem {A} (P Q : A → Prop) `{∀ x, Decision (P x)} `{∀ x, Decision (Q x)}
    (l : list A) :
  (∀ x, x ∈ l → (P x ↔ Q x)) → filter P l = filter Q l.
Proof.
  induction l as [|x l IH]; intros Hl; [done|].
  rewrite !filter_cons. rewrite IH by (intros y Hy; apply Hl; by right).
  pose proof (Hl x (list_elem_of_here _ _)) as Hx.
  destruct (decide (P x)) as [HP|HP], (decide (Q x)) as [HQ|HQ]; tauto.
Qed.

Lemma normalizeReferences_informative (c : Conf) :
  informativeReferences (Plugin.normalizeReferences c)
  = filter (λ key, Js.toLowerCase key ∉ Js.toLowerCase <$> normativeReferences c)
           (informativeReferences c).
Proof.
  unfold Plugin.normalizeReferences. cbn [informativeReferences].
  rewrite foldl_setDelete. apply filter_ext_elem. intros x Hx.
  rewrite list_elem_of_filter, elem_of_newSet, elem_of_nil. tauto.
Qed.

Lemma Conf_eq (c1 c2 : Conf) :
  normativeReferences c1 = normativeReferences c2 →
  informativeReferences c1 = informativeReferences c2 →
  localBiblio c1 = localBiblio c2 → c1 = c2.
Proof. destruct c1, c2. cbn. by intros -> -> ->. Qed.

(** X1. [normalizeReferences] leaves the normative keys and the override
    table as they are, and keeps of the informative keys, in their order,
    exactly those that differ from every normative key even when letter
    case is ignored; afterwards no informative key equals a normative key
    up to case. *)
Theorem normalizeReferences_drops_case_duplicates (c : Conf) :
  let c' := Plugin.normalizeReferences c in
  normativeReferences c' = normativeReferences c
  ∧ localBiblio c' = localBiblio c
  ∧ informativeReferences c'
    = filter (λ key, Js.toLowerCase key ∉ Js.toLowerCase <$> normativeReferences c)
             (informativeReferences c)
  ∧ ∀ key n, key ∈ informativeReferences c' → n ∈ normativeReferences c' →
             Js.toLowerCase key ≠ Js.toLowerCase n.
Proof.
  cbv zeta. pose proof (normalizeReferences_informative c) as Hinf.
  split_and!; [done|done|done|].
  intros key n Hkey Hn Heq. rewrite Hinf in Hkey.
  apply list_elem_of_filter in Hkey as [Hnot _]. apply Hnot.
  rewrite Heq. apply list_elem_of_fmap. eauto.
Qed.

(** X2. Normalising twice is normalising once. *)
Theorem normalizeReferences_idempotent (c : Conf) :
  Plugin.normalizeReferences (Plugin.normalizeReferences c) = Plugin.normalizeReferences c.
Proof.
  apply Conf_eq; [done| |done].
  rewrite (normalizeReferences_informative (Plugin.normalizeReferences c)).
  rewrite (normalizeReferences_informative c).
  change (normativeReferences (Plugin.normalizeReferences c)) with (normativeReferences c).
  rewrite list_filter_filter. apply list_filter_iff. tauto.
Qed.

(** ** Cache lookup *)

(** X3. [getReferencesFromIdb] never throws and answers every key asked
    for, in order. When the database opens and every lookup settles, it
    logs nothing and pairs each key with the record found; when the
    database does not open or one lookup rejects, it logs that one error
    as a warning and pairs every key with no data. *)
Theorem getReferencesFromIdb_answers_every_key env needed w :
  ∃ refs logs,
    getReferencesFromIdb env needed w = (Normal refs, appendLog logs w)
    ∧ refs.*1 = needed
    ∧ (idbReady env = true ∧ (∀ k, k ∈ needed → idbFind env k ≠ FindRejects) →
       logs = [] ∧ ∀ k, k ∈ needed → (k, findData env k) ∈ refs)
    ∧ (idbReady env = false ∨ (∃ k, k ∈ needed ∧ idbFind env k = FindRejects) →
       logs = [WarnObject IdbError] ∧ ∀ r, r ∈ refs → r.2 = None).
Proof.
  rewrite getReferencesFromIdb_spec. do 2 eexists. split; [done|].
  unfold idbRefsOf, idbLogs, cacheUp.
  destruct (idbReady env) eqn:Hready; cbn [andb].
  - destruct (forallb (findOk env) needed) eqn:Hall.
    + rewrite forallb_forall in Hall. split_and!.
      * rewrite <-list_fmap_compose. by rewrite list_fmap_id.
      * intros _. split; [done|]. intros k Hk. apply list_elem_of_fmap. eauto.
      * intros [|(k & Hk%list_elem_of_In & Hf)]; [done|].
        apply Hall in Hk. unfold findOk in Hk. by rewrite Hf in Hk.
    + split_and!.
      * rewrite <-list_fmap_compose. by rewrite list_fmap_id.
      * intros [_ Hok]. exfalso.
        assert (forallb (findOk env) needed = true); [|congruence].
        apply forallb_forall. intros k Hk%list_elem_of_In. specialize (Hok k Hk).
        unfold findOk. by destruct (idbFind env k).
      * intros _. split; [done|]. by intros r (k & -> & _)%list_elem_of_fmap.
  - split_and!.
    + rewrite <-list_fmap_compose. by rewrite list_fmap_id.
    + by intros [? _].
    + intros _. split; [done|]. by intros r (k & -> & _)%list_elem_of_fmap.
Qed.

(** ** The adapters, further *)

(** X4. The option [forceUpdate] has no effect on [updateFromSpecref]: a
    response that is not [ok] has a status other than 200, and is dropped
    by the second test whatever the option says. *)
Theorem updateFromSpecref_ignores_forceUpdate env refs o1 o2 w :
  updateFromSpecref env refs o1 w = updateFromSpecref env refs o2 w.
Proof.
  unfold updateFromSpecref. destruct (_ || _); [done|].
  destruct (fetchSpecref env _) as [err|r]; [done|].
  destruct (status r =? 200) eqn:Hs.
  - apply Z.eqb_eq in Hs. unfold ok. rewrite Hs. cbn. by rewrite !andb_false_r.
  - cbn. by rewrite !orb_true_r.
Qed.

(** Every entry of the mapping [updateFromCrossref] returns carries its key
    as [id], no [reference], and the non-empty DOI the key is made of. *)
Lemma updateFromCrossref_stamps env refs w m w' :
  updateFromCrossref env refs w = (Normal (Some m), w') →
  ∀ key e, m !! key = Some e →
    id e = Some key ∧ reference e = None
    ∧ ∃ d, DOI e = Some d ∧ d ≠ EmptyString ∧ key = "doi:" +:+ d.
Proof.
  unfold updateFromCrossref.
  destruct (_ || _); [done|].
  destruct (fetchCrossref env _) as [err|r]; [by munfold|].
  destruct (json r) as [[[items|]]|]; [|by munfold..].
  cbn [messageItems]. unfold mbind, M_bind, bind at 1.
  destruct (reduce_collectWork_items items ∅ w) as (logs & ->).
  case_bool_decide; [done|]. munfold. intros Hrun key e Hkey. simplify_eq.
  rewrite lookup_collected, lookup_empty in Hkey.
  destruct (last _) as [item|] eqn:Hlast; [|done]. simplify_eq.
  apply last_Some_elem_of, list_elem_of_filter in Hlast as [Hk _].
  apply crossrefKey_Some in Hk as (d & Hd & Hne & ->).
  unfold stamped. cbn. split_and!; [done|done|]. by exists d.
Qed.

(** ** updateFromNetwork, further *)

Lemma updateFromNetwork_frame env refs options w c w' :
  updateFromNetwork env refs options w = (c, w') →
  c ≠ Unsettled
  ∧ biblio w' = biblio w ∧ done w' = done w ∧ conf w' = conf w
  ∧ shownErrors w' = shownErrors w
  ∧ (idbWrites w' = idbWrites w
     ∨ ∃ data expires, c = Normal data ∧ idbWrites w' = idbWrites w ++ [(data, expires)]).
Proof.
  unfold updateFromNetwork.
  destruct (adapters_outcome env refs options w) as (logs & H).
  unfold mbind, M_bind, bind at 1.
  destruct (updateFromSpecref env (specrefIds refs) options w) as [[d1|e1|] w1];
    [|destruct H as [_ ->]; intros ?; simplify_eq; cbn;
      split_and!; first [done | by left]|done].
  destruct H as [_ H]. unfold bind at 1.
  destruct (updateFromCrossref env (crossrefIds refs) w1) as [[d2|e2|] w2];
    [|destruct H as [_ ->]; intros ?; simplify_eq; cbn;
      split_and!; first [done | by left]|done].
  destruct H as [_ ->]. unfold identifier.
  generalize (lookupBinding (updateFromNetworkScope env) "response").
  generalize (lookupBinding (updateFromNetworkScope env) "oneHourFromNow").
  intros b2 b1. unfold addAll. munfold.
  destruct b1 as [[r|n|]|], b2 as [[r'|t|]|], (idbAddAll env); cbn;
    intros ?; simplify_eq; cbn; split_and!; first [done | by left | right; eauto].
Qed.

(** X5. [updateFromNetwork] always returns or throws, and touches neither
    the store, nor [done], nor the configuration, nor the reported
    errors; the cache is left alone or receives the one batch that is
    also returned. *)
Theorem updateFromNetwork_spares_the_store env refs options w :
  let r := updateFromNetwork env refs options w in
  r.1 ≠ Unsettled
  ∧ biblio r.2 = biblio w ∧ done r.2 = done w ∧ conf r.2 = conf w
  ∧ shownErrors r.2 = shownErrors w
  ∧ (idbWrites r.2 = idbWrites w
     ∨ ∃ data expires, r.1 = Normal data ∧ idbWrites r.2 = idbWrites w ++ [(data, expires)]).
Proof.
  cbv zeta. apply (updateFromNetwork_frame env refs options w).
  by destruct (updateFromNetwork env refs options w).
Qed.

(** X6. In a page that defines no global [response], every call of
    [updateFromNetwork] ends in an exception, whatever the keys, the
    options and the answers of the network, and writes nothing to the
    cache. *)
Theorem updateFromNetwork_never_returns_without_global_response env refs options w :
  lookupBinding (pageGlobals env) "response" = None →
  ∃ e, (updateFromNetwork env refs options w).1 = Throw e
       ∧ idbWrites (updateFromNetwork env refs options w).2 = idbWrites w.
Proof.
  intros Hpage.
  destruct (updateFromNetwork_throws env refs options w Hpage) as (e & logs & ->).
  by exists e.
Qed.

Lemma updateFromNetwork_never_returns_without_global_response_witness :
  lookupBinding (pageGlobals freshEnv) "response" = None
  ∧ ∃ e, (updateFromNetwork freshEnv ["RFC2119"; "doi:10.1000/182"] (mkOptions false)
            emptyWorld).1 = Throw e
         ∧ idbWrites (updateFromNetwork freshEnv ["RFC2119"; "doi:10.1000/182"]
                        (mkOptions false) emptyWorld).2 = idbWrites emptyWorld.
Proof.
  split; [reflexivity|].
  apply (updateFromNetwork_never_returns_without_global_response freshEnv
           ["RFC2119"; "doi:10.1000/182"] (mkOptions false) emptyWorld).
  reflexivity.
Defined.

(** ** The resolution pass, further *)







(** X8. A pass started while [done] is pending always returns or throws,
    and [done] is resolved afterwards exactly when the pass returned. *)
Theorem run_signals_ready_iff_it_completes env w :
  done w = Pending →
  (Plugin.run env w).1 ≠ Unsettled
  ∧ (done (Plugin.run env w).2 = Resolved ↔ (Plugin.run env w).1 = Normal tt).
Proof.
  intros Hpending. rewrite run_cache_phase. case_bool_decide; [done|].
  destruct (updateFromNetwork _ _ _ _) as [c w1] eqn:Hnet.
  apply updateFromNetwork_frame in Hnet as (Hc & _ & Hdone & _).
  destruct c as [data|e|]; [done| |done].
  cbn. rewrite Hdone. unfold afterCache. cbn. rewrite Hpending. split; [done|]. split; done.
Qed.

Lemma run_signals_ready_iff_it_completes_witness :
  done overrideWorld = Pending
  ∧ (Plugin.run malformedEnv overrideWorld).1 ≠ Unsettled
  ∧ (done (Plugin.run malformedEnv overrideWorld).2 = Resolved
     ↔ (Plugin.run malformedEnv overrideWorld).1 = Normal tt).
Proof.
  split; [reflexivity|].
  apply (run_signals_ready_iff_it_completes malformedEnv overrideWorld). reflexivity.
Defined.



(** ** Alias walks, further *)

Lemma aliasChain_more_fuel fuel fuel' b key c :
  (fuel ≤ fuel')%nat → aliasChain fuel b key = Some c → aliasChain fuel' b key = Some c.
Proof.
  revert fuel' key c. induction fuel as [|fuel IH]; intros fuel' key c Hle; [done|].
  destruct fuel' as [|fuel']; [lia|]. cbn [aliasChain].
  destruct (b !! key) as [e|]; [|done].
  destruct (Js.truthyProp (aliasOf e)); [|done].
  destruct (aliasChain fuel b _) as [c'|] eqn:Hc; [|done].
  rewrite (IH fuel' _ c') by (done || lia). done.
Qed.

Lemma aliasChain_head fuel b key c :
  aliasChain fuel b key = Some c → ∃ c', c = key :: c'.
Proof.
  destruct fuel as [|fuel]; [done|]. cbn [aliasChain].
  destruct (b !! key) as [e|]; [|intros [= <-]; eauto].
  destruct (Js.truthyProp (aliasOf e)); [|intros [= <-]; eauto].
  destruct (aliasChain fuel b _) as [c'|]; [|done]. intros [= <-]. eauto.
Qed.

(** Every key on the chain starts a chain of its own, no longer than the
    whole. *)
Lemma aliasChain_from_member fuel b key c k :
  aliasChain fuel b key = Some c → k ∈ c →
  ∃ fuel2 c2, aliasChain fuel2 b k = Some c2 ∧ (length c2 ≤ length c)%nat.
Proof.
  revert key c. induction fuel as [|fuel IH]; intros key c; [done|].
  intros Hc Hk. pose proof Hc as Hc0. cbn [aliasChain] in Hc.
  destruct (b !! key) as [e|] eqn:He.
  2:{ simplify_eq. apply list_elem_of_singleton in Hk as ->. by exists (S fuel), [key]. }
  destruct (Js.truthyProp (aliasOf e)) eqn:Ha.
  2:{ simplify_eq. apply list_elem_of_singleton in Hk as ->. by exists (S fuel), [key]. }
  destruct (aliasChain fuel b _) as [c'|] eqn:Hc'; [|done]. cbn in Hc. simplify_eq.
  apply elem_of_cons in Hk as [->|Hk].
  - by exists (S fuel), (key :: c').
  - destruct (IH _ _ Hc' Hk) as (f2 & c2 & H2 & Hlen). exists f2, c2. cbn. split; [done|lia].
Qed.

Lemma aliasChain_NoDup fuel b key c : aliasChain fuel b key = Some c → NoDup c.
Proof.
  revert key c. induction fuel as [|fuel IH]; intros key c; [done|].
  intros Hc. pose proof Hc as Hc0. cbn [aliasChain] in Hc.
  destruct (b !! key) as [e|] eqn:He.
  2:{ simplify_eq. apply NoDup_singleton. }
  destruct (Js.truthyProp (aliasOf e)) eqn:Ha.
  2:{ simplify_eq. apply NoDup_singleton. }
  destruct (aliasChain fuel b _) as [c'|] eqn:Hc'; [|done]. cbn in Hc. simplify_eq.
  constructor; [|by eapply IH].
  intros Hin. destruct (aliasChain_from_member _ _ _ _ _ Hc' Hin) as (f2 & c2 & H2 & Hlen).
  pose proof (aliasChain_more_fuel f2 (Nat.max f2 (S fuel)) b key c2 ltac:(lia) H2) as E1.
  pose proof (aliasChain_more_fuel (S fuel) (Nat.max f2 (S fuel)) b key _ ltac:(lia) Hc0) as E2.
  rewrite E1 in E2. simplify_eq. cbn in Hlen. lia.
Qed.

(** What [resolveRef] returns is the store's value at the end of the
    chain. *)
Lemma resolveRef_chain fuel key w r w' :
  resolveRef fuel key w = (Normal r, w') →
  w' = w ∧ done w = Resolved
  ∧ ∃ c kn, aliasChain fuel (biblio w) key = Some c ∧ last c = Some kn
            ∧ r = biblio w !! kn
            ∧ ∀ e, r = Some e → Js.truthyProp (aliasOf e) = false.
Proof.
  revert key. induction fuel as [|fuel IH]; intros key; [done|].
  cbn [resolveRef aliasChain]. unfold mbind, M_bind, bind, awaitDone.
  destruct (done w) eqn:Hd; [done|].
  destruct (biblio w !! key) as [e|] eqn:He.
  2:{ intros [= <- <-]. split_and!; [done..|]. exists [key], key. by rewrite He. }
  destruct (Js.truthyProp (aliasOf e)) eqn:Ha.
  2:{ intros [= <- <-]. split_and!; [done..|]. exists [key], key. rewrite He.
      split_and!; [done..|]. by intros ? [= <-]. }
  intros Hrun. destruct (IH _ Hrun) as (-> & _ & c & kn & Hc & Hlast & Hr & Hna).
  split_and!; [done..|]. exists (key :: c), kn. rewrite Hc. split_and!; [done| |done..].
  rewrite last_cons, Hlast. done.
Qed.

(** X10. When [resolveRef] returns, [done] had resolved, the world is as
    it was, and the value returned is what the store holds at the key the
    alias pointers lead to from the key asked for: an entry that is not
    an alias, or nothing when that key is missing. *)
Theorem resolveRef_returns_content_of_the_store fuel key w r w' :
  resolveRef fuel key w = (Normal r, w') →
  w' = w ∧ done w = Resolved
  ∧ ∃ target, resolvesTo (biblio w) key target ∧ r = biblio w !! target
              ∧ ∀ e, r = Some e → Js.truthyProp (aliasOf e) = false.
Proof.
  intros Hrun.
  destruct (resolveRef_chain _ _ _ _ _ Hrun) as (-> & Hd & c & kn & Hc & Hlast & Hr & Hna).
  split_and!; [done..|]. exists kn. split_and!; [|done..]. by exists fuel, c.
Qed.

Lemma resolveRef_returns_content_of_the_store_witness :
  resolveRef 2 "html5" chainWorld = (Normal (Some localHtml), chainWorld)
  ∧ chainWorld = chainWorld ∧ done chainWorld = Resolved
  ∧ ∃ target, resolvesTo (biblio chainWorld) "html5" target
              ∧ Some localHtml = biblio chainWorld !! target
              ∧ ∀ e, Some localHtml = Some e → Js.truthyProp (aliasOf e) = false.
Proof.
  split; [vm_compute; reflexivity|].
  apply (resolveRef_returns_content_of_the_store 2 "html5" chainWorld (Some localHtml)
           chainWorld).
  vm_compute. reflexivity.
Defined.

(** ** De-duplication, further *)

Section JsMapMore.
Context {K V : Type} `{EqDecision K}.
Implicit Types (m : list (K * V)) (k : K) (v : V).

Lemma JsMap_set_keys m k v :
  (JsMap.set m k v).*1 = if decide (k ∈ m.*1) then m.*1 else m.*1 ++ [k].
Proof.
  induction m as [|[k0 v0] m IH]; cbn.
  - by rewrite decide_False by apply not_elem_of_nil.
  - case_bool_decide as Hk; cbn.
    + subst k0. by rewrite decide_True by left.
    + rewrite IH. destruct (decide (k ∈ m.*1)) as [Hin|Hin].
      * by rewrite decide_True by (by right).
      * rewrite decide_False; [done|]. rewrite not_elem_of_cons. done.
Qed.

End JsMapMore.

Lemma unique_fold_firsts (m : list (option string * GoodRef)) refs :
  foldl uniqueStep m refs = m ++ ((λ r, (canonicalId r, r)) <$> firstsNotIn m.*1 refs).
Proof.
  revert m. induction refs as [|r refs IH]; intros m; cbn [foldl firstsNotIn].
  - by rewrite app_nil_r.
  - rewrite IH. unfold uniqueStep.
    destruct (JsMap.has m (canonicalId r)) eqn:Hhas; cbn [negb].
    + rewrite bool_decide_eq_true_2; [done|].
      apply dec_stable. intros Hn. apply JsMap_has_false in Hn. congruence.
    + apply JsMap_has_false in Hhas. rewrite bool_decide_eq_false_2 by done.
      rewrite JsMap_set_fresh by done. rewrite fmap_app, fmap_cons, <-app_assoc. done.
Qed.

Lemma getUniqueRefs_firsts refs : getUniqueRefs refs = firstsNotIn [] refs.
Proof.
  unfold getUniqueRefs. fold uniqueStep. rewrite unique_fold_firsts. cbn.
  unfold JsMap.values. rewrite <-list_fmap_compose. apply list_fmap_id.
Qed.

Lemma aliasStep_keys (m : list (option string * list string)) r :
  (aliasStep m r).*1
  = if decide (canonicalId r ∈ m.*1) then m.*1 else m.*1 ++ [canonicalId r].
Proof.
  unfold aliasStep. cbn zeta.
  destruct (JsMap.has m (canonicalId r)) eqn:Hhas; cbn [negb].
  - assert (canonicalId r ∈ m.*1) as Hin.
    { apply dec_stable. intros Hn. apply JsMap_has_false in Hn. congruence. }
    by rewrite JsMap_set_keys, !decide_True.
  - apply JsMap_has_false in Hhas.
    rewrite JsMap_set_keys, JsMap_set_keys. rewrite (decide_False (P := _ ∈ m.*1)) by done.
    rewrite decide_True; [done|]. apply elem_of_app. right. by left.
Qed.

Lemma aliases_fold_keys (m : list (option string * list string)) refs :
  (foldl aliasStep m refs).*1 = m.*1 ++ (canonicalId <$> firstsNotIn m.*1 refs).
Proof.
  revert m. induction refs as [|r refs IH]; intros m; cbn [foldl firstsNotIn].
  - by rewrite app_nil_r.
  - rewrite IH, aliasStep_keys. case_bool_decide as Hin.
    + by rewrite decide_True.
    + rewrite decide_False by done. by rewrite fmap_cons, <-app_assoc.
Qed.

Lemma firstsNotIn_sublist seen refs : firstsNotIn seen refs `sublist_of` refs.
Proof.
  revert seen. induction refs as [|r refs IH]; intros seen; cbn; [done|].
  case_bool_decide; [by apply sublist_cons|by apply sublist_skip].
Qed.

Lemma firstsNotIn_fresh seen refs r :
  r ∈ firstsNotIn seen refs → canonicalId r ∉ seen.
Proof.
  revert seen. induction refs as [|r0 refs IH]; intros seen; cbn; [by intros ?%elem_of_nil|].
  case_bool_decide as Hin; [by apply IH|].
  intros [->|Hr]%elem_of_cons; [done|].
  apply IH in Hr. rewrite not_elem_of_app in Hr. tauto.
Qed.

Lemma firstsNotIn_NoDup seen refs : NoDup (canonicalId <$> firstsNotIn seen refs).
Proof.
  revert seen. induction refs as [|r refs IH]; intros seen; cbn; [constructor|].
  case_bool_decide as Hin; [done|]. rewrite fmap_cons. constructor; [|done].
  intros (r' & Heq & Hr')%list_elem_of_fmap.
  apply firstsNotIn_fresh in Hr'. rewrite <-Heq in Hr'.
  apply Hr', elem_of_app. right. by left.
Qed.

Lemma firstsNotIn_id seen refs :
  NoDup (canonicalId <$> refs) → (∀ r, r ∈ refs → canonicalId r ∉ seen) →
  firstsNotIn seen refs = refs.
Proof.
  revert seen. induction refs as [|r refs IH]; intros seen Hnd Hseen; cbn; [done|].
  rewrite fmap_cons in Hnd. apply NoDup_cons in Hnd as [Hr Hnd].
  rewrite bool_decide_eq_false_2 by (apply Hseen; by left).
  f_equal. apply IH; [done|]. intros r' Hr'. rewrite not_elem_of_app. split.
  - apply Hseen. by right.
  - rewrite list_elem_of_singleton. intros Heq. apply Hr. rewrite <-Heq.
    by apply list_elem_of_fmap_2.
Qed.

(** X14. [getUniqueRefs] selects references from its input, in order: no
    two selected references have the same canonical id, every input
    reference has its id represented, and selecting again changes
    nothing. *)
Theorem getUniqueRefs_is_a_duplicate_free_selection (refs : list GoodRef) :
  getUniqueRefs refs `sublist_of` refs
  ∧ NoDup (canonicalId <$> getUniqueRefs refs)
  ∧ (∀ r, r ∈ refs → ∃ r', r' ∈ getUniqueRefs refs ∧ canonicalId r' = canonicalId r)
  ∧ getUniqueRefs (getUniqueRefs refs) = getUniqueRefs refs.
Proof.
  rewrite !getUniqueRefs_firsts. split_and!.
  - apply firstsNotIn_sublist.
  - apply firstsNotIn_NoDup.
  - intros r Hr. rewrite <-getUniqueRefs_firsts.
    pose proof (unique_fold [] refs (canonicalId r)) as Hf.
    rewrite decide_False in Hf by apply not_elem_of_nil.
    specialize (Hf ltac:(by intros ?? ?%elem_of_nil)).
    destruct (filter (λ r0, canonicalId r0 = canonicalId r) refs) as [|r' l] eqn:Hfl.
    { exfalso. eapply (filter_nil_not_elem_of _ _ r Hfl); done. }
    exists r'. cbn in Hf.
    assert (r' ∈ filter (λ r0, canonicalId r0 = canonicalId r) (getUniqueRefs refs)) as Hin.
    { unfold getUniqueRefs. fold uniqueStep. rewrite Hf. by left. }
    apply list_elem_of_filter in Hin. tauto.
  - apply firstsNotIn_id; [apply firstsNotIn_NoDup|]. intros ? _. apply not_elem_of_nil.
Qed.

(** X15. The alias table has exactly the canonical ids of the kept
    references as keys, in the same order, and the list under a kept
    reference's id starts with that reference's key. *)
Theorem getAliases_has_a_list_for_every_kept_reference (refs : list GoodRef) :
  (getAliases refs).*1 = canonicalId <$> getUniqueRefs refs
  ∧ ∀ r, r ∈ getUniqueRefs refs →
         ∃ others, JsMap.get (getAliases refs) (canonicalId r) = Some (goodRef r :: others).
Proof.
  split.
  - rewrite getUniqueRefs_firsts. unfold getAliases. fold aliasStep.
    by rewrite aliases_fold_keys.
  - intros r Hr.
    pose proof (unique_fold [] refs (canonicalId r)) as Hf.
    rewrite decide_False in Hf by apply not_elem_of_nil.
    specialize (Hf ltac:(by intros ?? ?%elem_of_nil)).
    assert (r ∈ filter (λ r0, canonicalId r0 = canonicalId r) (getUniqueRefs refs)) as Hin.
    { by apply list_elem_of_filter. }
    unfold getUniqueRefs in Hin. fold uniqueStep in Hin. rewrite Hf in Hin.
    unfold getAliases. rewrite aliases_fold. cbn.
    destruct (filter (λ r0, canonicalId r0 = canonicalId r) refs) as [|r' l];
      [by apply elem_of_nil in Hin|].
    cbn in Hin. apply list_elem_of_singleton in Hin as ->. cbn. eauto.
Qed.

Lemma set_append_concat (m : list (option string * list string)) k x :
  concat (JsMap.set m k (default [] (JsMap.get m k) ++ [x])).*2 ≡ₚ concat m.*2 ++ [x].
Proof.
  induction m as [|[k0 v0] m IH]; cbn; [done|].
  case_bool_decide as Hk; cbn.
  - rewrite <-!app_assoc. f_equiv. apply Permutation_app_comm.
  - rewrite IH. by rewrite app_assoc.
Qed.

Lemma aliasStep_concat (m : list (option string * list string)) r :
  concat (aliasStep m r).*2 ≡ₚ concat m.*2 ++ [goodRef r].
Proof.
  unfold aliasStep. cbn zeta. rewrite set_append_concat.
  destruct (JsMap.has m (canonicalId r)) eqn:Hhas; cbn [negb]; [done|].
  apply JsMap_has_false in Hhas. rewrite JsMap_set_fresh by done.
  rewrite fmap_app, concat_app. cbn. by rewrite !app_nil_r.
Qed.

(** X16. The alias lists together hold the cited keys, each as often as
    it was cited: nothing is lost and nothing is added. *)
Theorem getAliases_files_every_key_once (refs : list GoodRef) :
  concat (getAliases refs).*2 ≡ₚ goodRef <$> refs.
Proof.
  unfold getAliases. fold aliasStep.
  enough (∀ m, concat (foldl aliasStep m refs).*2 ≡ₚ concat m.*2 ++ (goodRef <$> refs)) as H
    by apply (H []).
  induction refs as [|r refs IH]; intros m; cbn [foldl].
  - by rewrite app_nil_r.
  - rewrite IH, aliasStep_concat, fmap_cons, <-app_assoc. done.
Qed.

(** ** Trailing-period normalisation *)

Lemma trimStart_shape s :
  Js.trimStart s = EmptyString
  ∨ ∃ a t, Js.trimStart s = String a t ∧ Js.isWhiteSpace a = false.
Proof.
  induction s as [|a s IH]; [by left|]. cbn.
  destruct (Js.isWhiteSpace a) eqn:Ha; [done|]. right. eauto.
Qed.

Lemma trimEnd_shape a s :
  Js.trimEnd (String a s) = EmptyString ∨ ∃ t, Js.trimEnd (String a s) = String a t.
Proof.
  cbn. destruct (Js.trimEnd s); [destruct (Js.isWhiteSpace a)|]; eauto.
Qed.

Lemma trim_shape s :
  Js.trim s = EmptyString ∨ ∃ a t, Js.trim s = String a t ∧ Js.isWhiteSpace a = false.
Proof.
  unfold Js.trim. destruct (trimStart_shape s) as [->|(a & t & -> & Ha)]; [by left|].
  destruct (trimEnd_shape a t) as [->|[t' ->]]; [by left|]. right. eauto.
Qed.

Lemma trimEnd_cons a s :
  Js.trimEnd (String a s) =
  match Js.trimEnd s with
  | EmptyString => if Js.isWhiteSpace a then EmptyString else String a EmptyString
  | t => String a t
  end.
Proof. done. Qed.

Lemma trimEnd_idempotent s : Js.trimEnd (Js.trimEnd s) = Js.trimEnd s.
Proof.
  induction s as [|a s IH]; [done|]. rewrite trimEnd_cons.
  destruct (Js.trimEnd s) as [|b t] eqn:Ht.
  - destruct (Js.isWhiteSpace a) eqn:Ha; [done|]. cbn. by rewrite Ha.
  - rewrite trimEnd_cons, IH. done.
Qed.

Lemma trim_idempotent s : Js.trim (Js.trim s) = Js.trim s.
Proof.
  destruct (trim_shape s) as [E|(a & t & E & Ha)].
  - by rewrite E.
  - unfold Js.trim at 1. rewrite E. cbn [Js.trimStart]. rewrite Ha, <-E.
    unfold Js.trim. apply trimEnd_idempotent.
Qed.

Lemma trimEnd_snoc s c :
  Js.isWhiteSpace c = false →
  Js.trimEnd (s +:+ String c EmptyString) = s +:+ String c EmptyString.
Proof.
  intros Hc. induction s as [|a s IH].
  - change (EmptyString +:+ String c EmptyString) with (String c EmptyString).
    cbn. by rewrite Hc.
  - change (String a s +:+ String c EmptyString) with (String a (s +:+ String c EmptyString)).
    rewrite trimEnd_cons, IH. by destruct s.
Qed.

Lemma endsWith_app s suffix : endsWith (s +:+ suffix) suffix = true.
Proof.
  induction s as [|a s IH].
  - change (EmptyString +:+ suffix) with suffix.
    destruct suffix; cbn; by rewrite bool_decide_eq_true_2.
  - change (String a s +:+ suffix) with (String a (s +:+ suffix)).
    cbn [endsWith]. by case_bool_decide.
Qed.

Lemma endWithDot_cases s :
  (Js.trim s = EmptyString ∧ endWithDot s = EmptyString)
  ∨ (∃ a t, Js.trim s = String a t ∧ Js.isWhiteSpace a = false
            ∧ (endWithDot s = Js.trim s ∨ endWithDot s = Js.trim s +:+ ".")
            ∧ endsWith (endWithDot s) "." = true).
Proof.
  unfold endWithDot, endNormalizer. cbn zeta.
  destruct (trim_shape s) as [->|(a & t & -> & Ha)]; [by left|]. right.
  exists a, t. cbn [Js.truthy negb orb].
  destruct (endsWith (String a t) ".") eqn:He.
  - split_and!; [done..|by left|done].
  - split_and!; [done..|by right|apply endsWith_app].
Qed.

(** X17. [endWithDot] normalises: applying it twice is applying it once;
    its result has no white space at either end; the result is empty
    exactly for a blank input; and for any other input it ends with a
    full stop. *)
Theorem endWithDot_normalises (s : string) :
  endWithDot (endWithDot s) = endWithDot s
  ∧ Js.trim (endWithDot s) = endWithDot s
  ∧ (endWithDot s = EmptyString ↔ blank s = true)
  ∧ (blank s = false → endsWith (endWithDot s) "." = true).
Proof.
  assert (Htrim : Js.trim (endWithDot s) = endWithDot s).
  { destruct (endWithDot_cases s) as [[_ ->]|(a & t & E & Ha & [->| ->] & _)]; [done| |].
    - apply trim_idempotent.
    - rewrite E. unfold Js.trim.
      change (String a t +:+ ".") with (String a (t +:+ ".")).
      cbn [Js.trimStart]. rewrite Ha.
      change (String a (t +:+ ".")) with (String a t +:+ ".").
      by apply trimEnd_snoc. }
  assert (Hblank : Js.trim s = EmptyString ↔ blank s = true).
  { pose proof (truthy_trim s) as Ht. destruct (Js.trim s), (blank s); cbn in Ht; naive_solver. }
  split_and!.
  - destruct (endWithDot_cases s) as [[_ ->]|(a & t & E & Ha & Hor & Hends)]; [done|].
    unfold endWithDot at 1, endNormalizer. cbn zeta. rewrite Htrim.
    fold endWithDot. rewrite Hends, orb_true_r. done.
  - done.
  - rewrite <-Hblank.
    destruct (endWithDot_cases s) as [[E ->]|(a & t & E & Ha & [->| ->] & _)].
    + by rewrite E.
    + done.
    + rewrite E. split; [|done]. intros Habs. by destruct t.
  - intros Hb. destruct (endWithDot_cases s) as [[E _]|(a & t & _ & _ & _ & Hends)]; [|done].
    apply Hblank in E. congruence.
Qed.

Example endWithDot_examples :
  endWithDot "  W3C " = "W3C." ∧ endWithDot "IETF. " = "IETF." ∧ endWithDot "   " = EmptyString.
Proof. split_and!; reflexivity. Qed.

(** ** Authors and JSON-LD *)

(** X18. [renderCrossrefAuthor] returns [null] exactly for an author with
    neither a family name nor a literal name: a given name alone and an
    ORCID alone are not rendered. *)
Theorem renderCrossrefAuthor_null_iff_nameless svg (a : CrossrefAuthor) :
  renderCrossrefAuthor svg a = None
  ↔ Js.truthyProp (family a) = false ∧ Js.truthyProp (literal a) = false.
Proof.
  unfold renderCrossrefAuthor.
  destruct a as [[[|? g]|] [[|? f]|] [[|? l]|] [[|? o]|]]; cbv; naive_solver.
Qed.

(** X19. For an author without ORCID, the name rendered and the name
    exported to JSON-LD agree whenever the literal name or the family
    name is missing. When both are present they differ: JSON-LD exports
    the literal name, the rendering shows given and family name. *)
Theorem author_name_rendered_and_exported svg (a : CrossrefAuthor) :
  Js.truthyProp (ORCID a) = false →
  let exported := creatorName (crossrefAuthorToJsonld a) in
  (Js.truthyProp (literal a) = false ∨ Js.truthyProp (family a) = false →
   renderCrossrefAuthor svg a = if Js.truthyProp exported then exported else None)
  ∧ (Js.truthyProp (literal a) = true → Js.truthyProp (family a) = true →
     exported = literal a
     ∧ renderCrossrefAuthor svg a
       = if Js.truthyProp (given a)
         then Some (default EmptyString (given a) +:+ " " +:+ default EmptyString (family a))
         else family a).
Proof.
  unfold renderCrossrefAuthor, crossrefAuthorToJsonld.
  destruct a as [[[|? g]|] [[|? f]|] [[|? l]|] [[|? o]|]]; cbv; naive_solver.
Qed.

Lemma author_name_rendered_and_exported_witness :
  creatorName (crossrefAuthorToJsonld consortium) = Some "World Wide Web Consortium"
  ∧ renderCrossrefAuthor "<svg/>" consortium = Some "W3C"
  ∧ renderCrossrefAuthor "<svg/>" adaLovelace
    = creatorName (crossrefAuthorToJsonld adaLovelace).
Proof.
  destruct (author_name_rendered_and_exported "<svg/>" consortium eq_refl) as [_ H2].
  destruct (author_name_rendered_and_exported "<svg/>" adaLovelace eq_refl) as [H1 _].
  split_and!.
  - apply H2; reflexivity.
  - apply H2; reflexivity.
  - apply H1. by left.
Defined.

(** X20. An entry [updateFromCrossref] returned is translated by
    [citationMetadataToJsonld] without exception, as a Crossref work:
    title and URL are exported, but although the entry has a DOI, the
    JSON-LD object has no identifier, no id and no type. *)
Theorem crossref_works_lose_their_doi_in_jsonld env refs w m w' key c :
  updateFromCrossref env refs w = (Normal (Some m), w') →
  m !! key = Some (entry c) →
  Js.truthyProp (DOI (entry c)) = true
  ∧ ∃ ld, citationMetadataToJsonld c = Normal ld
          ∧ ld_identifier ld = None ∧ ld_id ld = None ∧ ld_type ld = None
          ∧ ld_name ld = title (entry c) ∧ ld_url ld = URL c.
Proof.
  intros Hrun Hkey.
  destruct (updateFromCrossref_stamps _ _ _ _ _ Hrun _ _ Hkey)
    as (Hid & _ & d & Hd & Hne & ->).
  split.
  - rewrite Hd. by destruct d.
  - unfold citationMetadataToJsonld. rewrite Hid.
    assert (Js.startsWith ("doi:" +:+ d) "doi:" = true) as -> by (by destruct d).
    eexists. split; [done|]. done.
Qed.

Lemma crossref_works_lose_their_doi_in_jsonld_witness :
  Js.truthyProp (DOI (entry doiCitation)) = true
  ∧ ∃ ld, citationMetadataToJsonld doiCitation = Normal ld
          ∧ ld_identifier ld = None ∧ ld_id ld = None ∧ ld_type ld = None
          ∧ ld_name ld = title (entry doiCitation) ∧ ld_url ld = URL doiCitation.
Proof.
  apply (crossref_works_lose_their_doi_in_jsonld (crossrefEnv [doiWork]) ["doi:10.1000/182"]
           emptyWorld {["doi:10.1000/182" := stamped "doi:10.1000/182" doiWork]} emptyWorld
           "doi:10.1000/182" doiCitation);
    vm_compute; reflexivity.
Defined.


(** ** The render side: alias walks *)

Ltac runfold :=
  unfold mbind, mret, R_bind, R_ret, throwOnPage, unsettledOnPage, getPage, setObjects,
    showErrorOnPage in *.

Lemma addReports_nil p : addReports [] p = p.
Proof. destruct p. unfold addReports. cbn. by rewrite app_nil_r. Qed.

Lemma addReports_app l1 l2 p : addReports l2 (addReports l1 p) = addReports (l1 ++ l2) p.
Proof. unfold addReports. cbn. by rewrite app_assoc. Qed.

Lemma toLowerCase_truthy s : Js.truthy (Js.toLowerCase s) = Js.truthy s.
Proof. by destruct s. Qed.

(** Reported errors do not change what is read. *)
Lemma storeGet_addReports msgs p key : storeGet (addReports msgs p) key = storeGet p key.
Proof. done. Qed.

Lemma get_addReports msgs p v name : get (addReports msgs p) v name = get p v name.
Proof. done. Qed.

Lemma field_names name o s :
  field name o = Some s →
  name ∈ ["aliasOf"; "id"; "title"; "href"; "DOI"; "reference"].
Proof.
  unfold field. repeat case_bool_decide; subst; try done; intros _;
    repeat first [by apply list_elem_of_here | apply list_elem_of_further].
Qed.

Lemma prototypeGet_names p key v : prototypeGet p key = Some v → key ∈ inheritedNames.
Proof.
  unfold prototypeGet, inheritedNames. rewrite elem_of_list_to_set, elem_of_cons, elem_of_app.
  case_bool_decide as H1; [by left|]. case_bool_decide as H2; [by right; left|].
  destruct (field key _) as [s|] eqn:Hf; [|done]. intros _. right. right.
  by eapply field_names.
Qed.

Lemma storeGet_keys p key v : storeGet p key = Some v → key ∈ storeKeys p.
Proof.
  unfold storeGet, storeKeys. rewrite elem_of_union, elem_of_dom.
  destruct (entries p !! key) as [v'|] eqn:He; [eauto|].
  intros H%prototypeGet_names. by right.
Qed.

(** The loop of [toRefContent] ends: every turn that goes on adds to
    [circular] a key at which the store answers and that was not in
    it. *)
Lemma followAliases_settles fuel ref rc key circular p :
  (budget p rc circular ≤ fuel)%nat →
  ∃ r msgs, followAliases fuel ref rc key circular p = (Normal r, addReports msgs p).
Proof.
  revert rc key circular p.
  induction fuel as [|fuel IH]; intros rc key circular p Hfuel.
  { destruct rc; cbn in Hfuel; lia. }
  cbn [followAliases]. runfold. destruct rc as [v|].
  2:{ exists (None, key), []. by rewrite addReports_nil. }
  destruct (truthyValue v && _).
  2:{ exists (Some v, key), []. by rewrite addReports_nil. }
  cbn [budget] in Hfuel. case_bool_decide as Hseen.
  - destruct (IH None key circular (addReports [circularMsg ref key] p))
      as (r & msgs & Hr); [cbn; lia|].
    unfold addReports at 1 in Hr. rewrite Hr, addReports_app. eauto.
  - apply IH.
    destruct (storeGet p (default EmptyString (get p v "aliasOf"))) as [v'|] eqn:Hlook;
      cbn [budget]; [|lia].
    apply storeGet_keys in Hlook.
    assert (storeKeys p ∖ ({[default EmptyString (get p v "aliasOf")]} ∪ circular)
            ⊂ storeKeys p ∖ circular) as Hlt%subset_size; [|lia].
    apply strict_spec_alt. split; [set_solver|].
    intros Heq.
    assert (default EmptyString (get p v "aliasOf") ∈ storeKeys p ∖ circular) as Hin.
    { by apply elem_of_difference. }
    rewrite <-Heq in Hin. set_solver.
Qed.

Lemma followAliases_more_fuel fuel fuel' ref rc key circular p r p' :
  (fuel ≤ fuel')%nat →
  followAliases fuel ref rc key circular p = (Normal r, p') →
  followAliases fuel' ref rc key circular p = (Normal r, p').
Proof.
  revert fuel' rc key circular p.
  induction fuel as [|fuel IH]; intros fuel' rc key circular p Hle; [done|].
  destruct fuel' as [|fuel']; [lia|].
  cbn [followAliases]. runfold. destruct rc as [v|]; [|done].
  destruct (truthyValue v && _); [|done].
  case_bool_decide; apply IH; lia.
Qed.

Lemma aliasPath_more_fuel fuel fuel' p key c :
  (fuel ≤ fuel')%nat → aliasPath fuel p key = Some c → aliasPath fuel' p key = Some c.
Proof.
  revert fuel' key c. induction fuel as [|fuel IH]; intros fuel' key c Hle; [done|].
  destruct fuel' as [|fuel']; [lia|]. cbn [aliasPath].
  destruct (storeGet p key) as [v|]; [|done].
  destruct (isAlias p v); [|done].
  destruct (aliasPath fuel p _) as [c'|] eqn:Hc; [|done].
  rewrite (IH fuel' _ c') by (done || lia). done.
Qed.

Lemma aliasPath_head fuel p key c :
  aliasPath fuel p key = Some c → ∃ c', c = key :: c'.
Proof.
  destruct fuel as [|fuel]; [done|]. cbn [aliasPath].
  destruct (storeGet p key) as [v|]; [|intros [= <-]; eauto].
  destruct (isAlias p v); [|intros [= <-]; eauto].
  destruct (aliasPath fuel p _) as [c'|]; [|done]. intros [= <-]. eauto.
Qed.

Lemma aliasPath_from_member fuel p key c k :
  aliasPath fuel p key = Some c → k ∈ c →
  ∃ fuel2 c2, aliasPath fuel2 p k = Some c2 ∧ (length c2 ≤ length c)%nat.
Proof.
  revert key c. induction fuel as [|fuel IH]; intros key c; [done|].
  intros Hc Hk. pose proof Hc as Hc0. cbn [aliasPath] in Hc.
  destruct (storeGet p key) as [v|] eqn:He.
  2:{ simplify_eq. apply list_elem_of_singleton in Hk as ->. by exists (S fuel), [key]. }
  destruct (isAlias p v) eqn:Ha.
  2:{ simplify_eq. apply list_elem_of_singleton in Hk as ->. by exists (S fuel), [key]. }
  destruct (aliasPath fuel p _) as [c'|] eqn:Hc'; [|done]. cbn in Hc. simplify_eq.
  apply elem_of_cons in Hk as [->|Hk].
  - by exists (S fuel), (key :: c').
  - destruct (IH _ _ Hc' Hk) as (f2 & c2 & H2 & Hlen). exists f2, c2. cbn. split; [done|lia].
Qed.

(** A walk that ends meets no key twice. *)
Lemma aliasPath_NoDup fuel p key c : aliasPath fuel p key = Some c → NoDup c.
Proof.
  revert key c. induction fuel as [|fuel IH]; intros key c; [done|].
  intros Hc. pose proof Hc as Hc0. cbn [aliasPath] in Hc.
  destruct (storeGet p key) as [v|] eqn:He.
  2:{ simplify_eq. apply NoDup_singleton. }
  destruct (isAlias p v) eqn:Ha.
  2:{ simplify_eq. apply NoDup_singleton. }
  destruct (aliasPath fuel p _) as [c'|] eqn:Hc'; [|done]. cbn in Hc. simplify_eq.
  constructor; [|by eapply IH].
  intros Hin. destruct (aliasPath_from_member _ _ _ _ _ Hc' Hin) as (f2 & c2 & H2 & Hlen).
  pose proof (aliasPath_more_fuel f2 (Nat.max f2 (S fuel)) p key c2 ltac:(lia) H2) as E1.
  pose proof (aliasPath_more_fuel (S fuel) (Nat.max f2 (S fuel)) p key _ ltac:(lia) Hc0) as E2.
  rewrite E1 in E2. simplify_eq. cbn in Hlen. lia.
Qed.

Lemma leadsTo_functional p ref0 k1 k2 : leadsTo p ref0 k1 → leadsTo p ref0 k2 → k1 = k2.
Proof.
  intros (f1 & c1 & Hc1 & Hl1) (f2 & c2 & Hc2 & Hl2).
  pose proof (aliasPath_more_fuel f1 (Nat.max f1 f2) p ref0 c1 ltac:(lia) Hc1) as E1.
  pose proof (aliasPath_more_fuel f2 (Nat.max f1 f2) p ref0 c2 ltac:(lia) Hc2) as E2.
  rewrite E1 in E2. simplify_eq. congruence.
Qed.

(** What the loop leaves behind: no report, and the value of the store
    at the key the walk ends at, from which the loop does not go on; or
    one report, for a cycle, and no content. *)
Lemma followAliases_result fuel ref rc key circular p r k' p' :
  followAliases fuel ref rc key circular p = (Normal (r, k'), p') →
  rc = storeGet p key →
  p' = p ∧ r = storeGet p k' ∧ (∀ v, r = Some v → isAlias p v = false) ∧ leadsTo p key k'
  ∨ (∃ k, p' = addReports [circularMsg ref k] p) ∧ r = None.
Proof.
  revert rc key circular p. induction fuel as [|fuel IH]; intros rc key circular p; [done|].
  cbn [followAliases]. runfold. destruct rc as [v|].
  2:{ intros [= <- <- <-] Hrc. left. rewrite <-Hrc. split_and!; [done..|].
      exists 1%nat, [key]. cbn. by rewrite <-Hrc. }
  destruct (truthyValue v && _) eqn:Ha.
  2:{ intros [= <- <- <-] Hrc. left. rewrite <-Hrc. split_and!; [done|done| |].
      - intros ? [= <-]. by unfold isAlias.
      - exists 1%nat, [key]. cbn. unfold isAlias. by rewrite <-Hrc, Ha. }
  case_bool_decide as Hseen.
  - intros Hrun _. destruct fuel as [|fuel]; cbn in Hrun; [done|].
    runfold. simplify_eq. right. eauto.
  - intros Hrun Hrc.
    destruct (IH _ _ _ _ Hrun eq_refl) as [(-> & -> & Hna & f & c & Hc & Hlast)|Hcycle];
      [|by right].
    left. split_and!; [done..|]. exists (S f), (key :: c). cbn [aliasPath].
    unfold isAlias. rewrite <-Hrc, Ha, Hc. split; [done|]. by rewrite last_cons, Hlast.
Qed.

(** A walk that ends is the walk of the loop, which then reports
    nothing. *)
Lemma followAliases_path fuel ref key circular p c :
  aliasPath fuel p key = Some c →
  (∀ k, k ∈ tail c → k ∉ circular) →
  ∃ kn, last c = Some kn
        ∧ followAliases (length c) ref (storeGet p key) key circular p
          = (Normal (storeGet p kn, kn), p).
Proof.
  revert key circular c. induction fuel as [|fuel IH]; intros key circular c; [done|].
  intros Hc Hfresh. pose proof (aliasPath_NoDup _ _ _ _ Hc) as Hnd.
  cbn [aliasPath] in Hc.
  destruct (storeGet p key) as [v|] eqn:He.
  2:{ simplify_eq. exists key. by rewrite He. }
  destruct (isAlias p v) eqn:Ha.
  2:{ simplify_eq. exists key. rewrite He. cbn. runfold. unfold isAlias in Ha. by rewrite Ha. }
  destruct (aliasPath fuel p _) as [c'|] eqn:Hc'; [|done]. cbn in Hc. simplify_eq.
  destruct (aliasPath_head _ _ _ _ Hc') as [c'' ->].
  cbn [tail] in Hfresh. apply NoDup_cons in Hnd as [_ Hnd].
  destruct (IH _ ({[default EmptyString (get p v "aliasOf")]} ∪ circular) _ Hc')
    as (kn & Hlast & Hrun).
  { cbn [tail]. intros k Hk. apply NoDup_cons in Hnd as [Hhead _].
    rewrite not_elem_of_union, not_elem_of_singleton. split.
    - intros ->. done.
    - apply Hfresh. by right. }
  exists kn. split; [by rewrite last_cons, Hlast|].
  change (length (key :: default EmptyString (get p v "aliasOf") :: c''))
    with (S (length (default EmptyString (get p v "aliasOf") :: c''))).
  cbn [followAliases]. runfold. unfold isAlias in Ha. rewrite Ha.
  rewrite bool_decide_eq_false_2 by (apply Hfresh; by left). done.
Qed.

(** The loop reads the page and reports; it never throws. *)
Lemma followAliases_frame fuel ref rc key circular p c p' :
  followAliases fuel ref rc key circular p = (c, p') →
  entries p' = entries p ∧ objects p' = objects p ∧ ∀ e, c ≠ Throw e.
Proof.
  revert rc key circular p. induction fuel as [|fuel IH]; intros rc key circular p.
  { by intros [= <- <-]. }
  cbn [followAliases]. runfold. destruct rc as [v|]; [|by intros [= <- <-]].
  destruct (truthyValue v && _); [|by intros [= <- <-]].
  case_bool_decide; intros Hrun; apply IH in Hrun; done.
Qed.

(** [toRefContent] settles on every page and every key, within a number
    of loop turns bounded by the number of keys of the store: it returns,
    or it throws. *)
Lemma toRefContent_settles ref p fuel :
  (turns p ≤ fuel)%nat →
  ∃ c p', toRefContent fuel ref p = (c, p') ∧ c ≠ Unsettled.
Proof.
  intros Hfuel. unfold toRefContent. runfold.
  destruct (followAliases_settles fuel ref (storeGet p ref) ref {[ref]} p)
    as ([rc key] & msgs & ->).
  { unfold turns in Hfuel. destruct (storeGet p ref); cbn [budget]; [|lia].
    assert (size (storeKeys p ∖ {[ref]}) ≤ size (storeKeys p))%nat.
    { apply subseteq_size. set_solver. }
    lia. }
  destruct rc as [[s|l]|]; [| |by eexists _, _].
  - destruct (truthyValue (VString s) && _); cbn; by eexists _, _.
  - destruct (truthyValue (VObject l) && _); cbn; by eexists _, _.
Qed.

Lemma toRefContent_more_fuel fuel fuel' ref0 p c p' :
  (fuel ≤ fuel')%nat → c ≠ Unsettled →
  toRefContent fuel ref0 p = (c, p') → toRefContent fuel' ref0 p = (c, p').
Proof.
  intros Hle Hc. unfold toRefContent. runfold.
  destruct (followAliases fuel ref0 (storeGet p ref0) ref0 {[ref0]} p)
    as [[[rc key]|e|] p1] eqn:Hloop.
  - by rewrite (followAliases_more_fuel _ _ _ _ _ _ _ _ _ Hle Hloop).
  - by destruct (followAliases_frame _ _ _ _ _ _ _ _ Hloop) as (_ & _ & Hno); destruct (Hno e).
  - intros ?. by simplify_eq.
Qed.

(** On the chain A -> B -> A, [toRefContent] yields no content for A and
    reports the cycle, naming A and B. *)
Lemma toRefContent_reports_cycle :
  toRefContent 4 "A" (pageOf cycleStore)
  = (Normal (mkRef "A" None),
     addReports ["Circular reference in biblio DB between [`A`] and [`B`]."]
                (pageOf cycleStore)).
Proof. vm_compute. reflexivity. Qed.

Lemma get_id_after_putId p l x :
  get (mkPage (<[l := setId x (objectAt p l)]> (objects p)) (entries p) (reported p))
      (VObject l) "id" = Some x.
Proof. unfold get, objectAt. cbn. by rewrite lookup_insert_eq. Qed.

(** What a call leaves behind, however it ends. *)
Lemma toRefContent_outcome fuel ref0 p c p' :
  toRefContent fuel ref0 p = (c, p') →
  entries p' = entries p
  ∧ match c with
    | Normal r =>
        ref r = ref0
        ∧ match refcontent r with
          | None =>
              objects p' = objects p
              ∧ (reported p' = reported p
                 ∧ (∃ key, leadsTo p ref0 key ∧ storeGet p key = None)
                 ∨ ∃ k, reported p' = reported p ++ [circularMsg ref0 k])
          | Some v =>
              reported p' = reported p
              ∧ (∃ key, leadsTo p ref0 key ∧ storeGet p key = Some v)
              ∧ isAlias p v = false
              ∧ (if truthyValue v && negb (Js.truthyProp (get p v "id"))
                 then ∃ l, v = VObject l
                           ∧ objects p'
                             = <[l := setId (Js.toLowerCase ref0) (objectAt p l)]> (objects p)
                 else objects p' = objects p)
          end
    | Throw e =>
        e = TypeError "refcontent.id" ∧ p' = p
        ∧ ∃ key s, leadsTo p ref0 key ∧ storeGet p key = Some (VString s)
                   ∧ s ≠ EmptyString ∧ Js.truthyProp (get p (VString s) "id") = false
    | Unsettled => True
    end.
Proof.
  unfold toRefContent. runfold.
  destruct (followAliases fuel ref0 (storeGet p ref0) ref0 {[ref0]} p)
    as [[[rc key]|e|] p1] eqn:Hloop.
  - destruct (followAliases_result _ _ _ _ _ _ _ _ _ Hloop eq_refl)
      as [(-> & -> & Hna & Hto)|[[k ->] ->]].
    2:{ intros [= <- <-]. cbn. split_and!; [done..|]. right. eauto. }
    destruct (storeGet p key) as [v|] eqn:Hv.
    2:{ intros [= <- <-]. cbn. split_and!; [done..|]. left. eauto. }
    specialize (Hna v eq_refl).
    destruct (truthyValue v && negb (Js.truthyProp (get p v "id"))) eqn:Hid.
    + destruct v as [s|l]; cbn [putId]; runfold.
      * intros [= <- <-]. split; [done|]. split_and!; [done..|].
        apply andb_true_iff in Hid as [Hs Hid]. apply negb_true_iff in Hid.
        exists key, s. split_and!; [done..| |done]. by destruct s.
      * intros [= <- <-]. cbn [ref refcontent objects entries reported]. rewrite Hid.
        split_and!; [done..| |done|]; eauto.
    + intros [= <- <-]. cbn [ref refcontent objects entries reported]. rewrite Hid.
      split_and!; [done..| |done|done]; eauto.
  - by destruct (followAliases_frame _ _ _ _ _ _ _ _ Hloop) as (_ & _ & Hno); destruct (Hno e).
  - intros [= <- <-]. by destruct (followAliases_frame _ _ _ _ _ _ _ _ Hloop) as (? & _).
Qed.

(** A cycle is reported only when the walk has no end. *)
Lemma reported_cycle_has_no_end fuel ref0 p k' k key :
  followAliases fuel ref0 (storeGet p ref0) ref0 {[ref0]} p
  = (Normal (None, k'), addReports [circularMsg ref0 k] p) →
  ¬ leadsTo p ref0 key.
Proof.
  intros Hloop (f & c & Hc & Hlast).
  destruct (followAliases_path f ref0 ref0 {[ref0]} p c Hc) as (kn & _ & Hwalk).
  { destruct (aliasPath_head _ _ _ _ Hc) as [c' ->]. cbn [tail].
    apply aliasPath_NoDup, NoDup_cons in Hc as [Hhead _].
    intros x Hx ->%elem_of_singleton. done. }
  pose proof (followAliases_more_fuel fuel (Nat.max fuel (length c))
                _ _ _ _ _ _ _ ltac:(lia) Hloop) as E1.
  pose proof (followAliases_more_fuel (length c) (Nat.max fuel (length c))
                _ _ _ _ _ _ _ ltac:(lia) Hwalk) as E2.
  rewrite E1 in E2. injection E2 as _ _ Hp.
  apply (f_equal (λ q, length (reported q))) in Hp. cbn in Hp.
  rewrite length_app in Hp. cbn in Hp. lia.
Qed.

(** What a call that returns leaves behind. *)
Lemma toRefContent_returns fuel ref0 p r p' :
  toRefContent fuel ref0 p = (Normal r, p') →
  ref r = ref0
  ∧ entries p' = entries p
  ∧ match refcontent r with
    | None =>
        objects p' = objects p
        ∧ (reported p' = reported p
           ∧ (∃ key, leadsTo p ref0 key ∧ storeGet p key = None)
           ∨ (∃ k, reported p' = reported p ++ [circularMsg ref0 k])
             ∧ ∀ key, ¬ leadsTo p ref0 key)
    | Some v =>
        reported p' = reported p
        ∧ (∃ key, leadsTo p ref0 key ∧ storeGet p key = Some v)
        ∧ isAlias p v = false
        ∧ (if truthyValue v && negb (Js.truthyProp (get p v "id"))
           then ∃ l, v = VObject l
                     ∧ objects p'
                       = <[l := setId (Js.toLowerCase ref0) (objectAt p l)]> (objects p)
           else objects p' = objects p)
        ∧ (truthyValue v = true → ref0 ≠ EmptyString →
           Js.truthyProp (get p' v "id") = true)
    end.
Proof.
  intros Hrun. pose proof (toRefContent_outcome _ _ _ _ _ Hrun) as (He & Hr & Hc).
  split_and!; [done..|].
  destruct (refcontent r) as [v|] eqn:Hv.
  - destruct Hc as (Hrep & Hkey & Hna & Hobj). split_and!; [done..|].
    intros Htruthy Hne. rewrite Htruthy in Hobj. cbn [andb] in Hobj.
    destruct (Js.truthyProp (get p v "id")) eqn:Hid; cbn [negb] in Hobj.
    + unfold get, objectAt in *. by rewrite Hobj.
    + destruct Hobj as (l & -> & Hobj). unfold get, objectAt. rewrite Hobj.
      rewrite lookup_insert_eq. by destruct ref0.
  - destruct Hc as (Hobj & [Hend|[k Hk]]); split; [done|by left|done|]. right.
    split; [by exists k|]. intros key.
    revert Hrun. unfold toRefContent. runfold.
    destruct (followAliases fuel ref0 (storeGet p ref0) ref0 {[ref0]} p)
      as [[[rc key']|e|] p1] eqn:Hloop; [|done..].
    destruct (followAliases_result _ _ _ _ _ _ _ _ _ Hloop eq_refl)
      as [(-> & -> & _ & _)|[[k2 ->] ->]].
    + destruct (storeGet p key') as [v|].
      * destruct (truthyValue v && _); [destruct v; cbn [putId]; runfold|];
          intros [= Hr' Hp']; rewrite <-Hr' in Hv; done.
      * intros [= _ Hp']. exfalso. rewrite <-Hp' in Hk.
        apply (f_equal length) in Hk. rewrite length_app in Hk. cbn in Hk. lia.
    + intros _. by eapply reported_cycle_has_no_end.
Qed.

(** X11. What [toRefContent] does when it returns. The result carries
    the key it was asked for, and the own properties of the store are as
    before. Without content, nothing was written: either the walk along
    the alias pointers ends at a key where the store answers nothing, or
    the walk has no end and exactly one error names the cycle. With
    content, nothing is reported; the content is what the store answers
    at the key the walk ends at, own or inherited from
    [Object.prototype], and the loop would not go on from it; the heap
    is as before, or, when the content is truthy and has no truthy [id],
    the content is an object and its [id] is now the lower-cased key; so
    a truthy content ends with a truthy [id], unless the key asked for is
    the empty string. *)
Theorem toRefContent_result fuel ref0 p r p' :
  toRefContent fuel ref0 p = (Normal r, p') →
  ref r = ref0
  ∧ entries p' = entries p
  ∧ match refcontent r with
    | None =>
        objects p' = objects p
        ∧ (reported p' = reported p
           ∧ (∃ key, leadsTo p ref0 key ∧ storeGet p key = None)
           ∨ (∃ k, reported p' = reported p ++ [circularMsg ref0 k])
             ∧ ∀ key, ¬ leadsTo p ref0 key)
    | Some v =>
        reported p' = reported p
        ∧ (∃ key, leadsTo p ref0 key ∧ storeGet p key = Some v)
        ∧ isAlias p v = false
        ∧ (if truthyValue v && negb (Js.truthyProp (get p v "id"))
           then ∃ l, v = VObject l
                     ∧ objects p'
                       = <[l := setId (Js.toLowerCase ref0) (objectAt p l)]> (objects p)
           else objects p' = objects p)
        ∧ (truthyValue v = true → ref0 ≠ EmptyString →
           Js.truthyProp (get p' v "id") = true)
    end.
Proof. apply toRefContent_returns. Qed.

Lemma toRefContent_result_witness :
  toRefContent 4 "html5" chainPage
  = (Normal (mkRef "html5" (Some (VObject (EntryObject 2)))), chainPageResolved)
  ∧ ref (mkRef "html5" (Some (VObject (EntryObject 2)))) = "html5"
  ∧ entries chainPageResolved = entries chainPage.
Proof.
  split; [vm_compute; reflexivity|].
  destruct (toRefContent_result 4 "html5" chainPage
              (mkRef "html5" (Some (VObject (EntryObject 2)))) chainPageResolved)
    as (H1 & H2 & _); [vm_compute; reflexivity|].
  split; assumption.
Defined.

(** A key that is the name of a method of [Object.prototype] has content,
    the method, even on an empty store; and a string entry makes
    [toRefContent] throw. *)
Example toRefContent_finds_inherited_method :
  toRefContent 2 "toString" (pageOf ∅)
  = (Normal (mkRef "toString" (Some (VObject (Builtin "toString")))),
     mkPage {[Builtin "toString" := setId "tostring" emptyObject]} ∅ []).
Proof. vm_compute. reflexivity. Qed.

Example toRefContent_throws_on_string_entry :
  let page := mkPage ∅ {["LEGACY" := VString "A reference given as text."]} [] in
  toRefContent 2 "LEGACY" page = (Throw (TypeError "refcontent.id"), page).
Proof. vm_compute. reflexivity. Qed.

(** X13. [toRefContent] never hangs, on any page and any key, circular
    chains included: as many turns of its loop as there are keys at which
    the store can answer, plus two, are enough, and further turns change
    nothing. It throws exactly when the walk ends at a non-empty string
    entry and no [id] is inherited; what it throws is the [TypeError] of
    the assignment to [refcontent.id], and the page is as before. In
    every other case it returns. *)
Theorem toRefContent_always_settles ref0 p (extra : nat) :
  ∃ c p',
    toRefContent (turns p) ref0 p = (c, p')
    ∧ toRefContent (turns p + extra) ref0 p = (c, p')
    ∧ c ≠ Unsettled
    ∧ ((∃ e, c = Throw e) ↔
       ∃ key s, leadsTo p ref0 key ∧ storeGet p key = Some (VString s)
                ∧ s ≠ EmptyString ∧ Js.truthyProp (get p (VString s) "id") = false)
    ∧ ∀ e, c = Throw e → e = TypeError "refcontent.id" ∧ p' = p.
Proof.
  destruct (toRefContent_settles ref0 p (turns p) ltac:(lia)) as (c & p' & Hrun & Hc).
  exists c, p'. split_and!; [done| |done| |].
  - eapply toRefContent_more_fuel; [|done..]. lia.
  - pose proof (toRefContent_outcome _ _ _ _ _ Hrun) as (He & Hout). split.
    + intros [e ->]. by destruct Hout as (_ & _ & ?).
    + intros (key & s & Hto & Hget & Hs & Hid).
      destruct c as [r|e|]; [|by eexists|done]. exfalso.
      destruct Hout as [_ Hout]. destruct (refcontent r) as [v|].
      * destruct Hout as (_ & (key' & Hto' & Hget') & _ & Hobj).
        rewrite (leadsTo_functional _ _ _ _ Hto' Hto) in Hget'. simplify_eq.
        rewrite Hid in Hobj. cbn in Hobj. destruct s; [done|].
        by destruct Hobj as (l & ? & _).
      * destruct Hout as (_ & [(_ & key' & Hto' & Hget')|[k Hk]]).
        -- rewrite (leadsTo_functional _ _ _ _ Hto' Hto) in Hget'. congruence.
        -- revert Hrun. unfold toRefContent. runfold.
           destruct (followAliases _ ref0 (storeGet p ref0) ref0 {[ref0]} p)
             as [[[rc key']|e|] p1] eqn:Hloop; [|done..].
           destruct (followAliases_result _ _ _ _ _ _ _ _ _ Hloop eq_refl)
             as [(-> & -> & _ & Hto')|[[k2 ->] ->]].
           ++ rewrite (leadsTo_functional _ _ _ _ Hto' Hto), Hget.
              rewrite Hid. destruct s; [done|]. cbn. runfold. done.
           ++ intros _. by eapply reported_cycle_has_no_end.
  - intros e ->. pose proof (toRefContent_outcome _ _ _ _ _ Hrun) as (_ & ? & ? & _). done.
Qed.

(** ** The render side: resolving a whole section *)

(** What a call that returns changes: the [id] of at most one object,
    which had no truthy [id]. Alias pointers are as before, a truthy [id]
    is as before, and [Object.prototype] is as before unless it is the
    content handed out. *)
Lemma toRefContent_frame fuel ref0 p r p' :
  toRefContent fuel ref0 p = (Normal r, p') →
  entries p' = entries p
  ∧ (∀ v, get p' v "aliasOf" = get p v "aliasOf")
  ∧ (∀ v, Js.truthyProp (get p v "id") = true → get p' v "id" = get p v "id")
  ∧ (refcontent r ≠ Some (VObject ObjectPrototype) →
     objectAt p' ObjectPrototype = objectAt p ObjectPrototype).
Proof.
  intros Hrun. pose proof (toRefContent_outcome _ _ _ _ _ Hrun) as (He & _ & Hc).
  split; [done|].
  assert (Hobj : objects p' = objects p
                 ∨ ∃ l x, refcontent r = Some (VObject l)
                          ∧ Js.truthyProp (get p (VObject l) "id") = false
                          ∧ objects p' = <[l := setId x (objectAt p l)]> (objects p)).
  { destruct (refcontent r) as [v|]; [|left; tauto].
    destruct Hc as (_ & _ & _ & Hobj).
    destruct (truthyValue v && negb (Js.truthyProp (get p v "id"))) eqn:Hid; [|by left].
    destruct Hobj as (l & -> & Hobj). right. exists l, (Js.toLowerCase ref0).
    cbn in Hid. apply negb_true_iff in Hid. done. }
  destruct Hobj as [Hobj|(l & x & Hr & Hid & Hobj)].
  { unfold get, objectAt. rewrite Hobj. done. }
  assert (Hat : ∀ l', objectAt p' l' = if decide (l' = l) then setId x (objectAt p l)
                                       else objectAt p l').
  { intros l'. unfold objectAt. rewrite Hobj. case_decide as Hl.
    - subst l'. by rewrite lookup_insert_eq.
    - by rewrite lookup_insert_ne. }
  assert (Hproto : l ≠ ObjectPrototype → objectAt p' ObjectPrototype = objectAt p ObjectPrototype).
  { intros Hl. rewrite Hat. by rewrite decide_False. }
  assert (Hown : Js.truthyProp (field "id" (objectAt p ObjectPrototype)) = true →
                 l ≠ ObjectPrototype).
  { intros Hinh ->. unfold get in Hid. destruct (field "id" _); congruence. }
  split_and!.
  - assert (Hf : ∀ l', field "aliasOf" (objectAt p' l') = field "aliasOf" (objectAt p l')).
    { intros l'. rewrite Hat. case_decide; by subst. }
    intros v. unfold get. destruct v as [s|l']; by rewrite !Hf.
  - intros v Hv. unfold get in *. destruct v as [s|l'].
    + by rewrite Hproto by auto.
    + rewrite (Hat l'). case_decide as Hl.
      { subst l'. unfold get in Hid. congruence. }
      destruct (field "id" (objectAt p l')) as [s|]; [done|]. by rewrite Hproto by auto.
  - intros Hne. apply Hproto. congruence.
Qed.

(** Pages that answer alike are walked alike. *)
Lemma aliasPath_ext fuel p p' key :
  entries p' = entries p →
  (∀ v, get p' v "aliasOf" = get p v "aliasOf") →
  objectAt p' ObjectPrototype = objectAt p ObjectPrototype →
  (∀ k, storeGet p' k = storeGet p k) ∧ aliasPath fuel p' key = aliasPath fuel p key.
Proof.
  intros He Ha Hp.
  assert (Hget : ∀ k, storeGet p' k = storeGet p k).
  { intros k. unfold storeGet, prototypeGet. by rewrite He, Hp. }
  split; [done|]. revert key. induction fuel as [|fuel IH]; intros key; [done|].
  cbn [aliasPath]. rewrite Hget. destruct (storeGet p key) as [v|]; [|done].
  unfold isAlias. rewrite Ha. destruct (truthyValue v && _); [|done]. by rewrite IH.
Qed.

Lemma resolveAll_invariant fuel refs p rs p' :
  resolveAll fuel refs p = (Normal rs, p') →
  ref <$> rs = refs
  ∧ entries p' = entries p
  ∧ (∀ v, get p' v "aliasOf" = get p v "aliasOf")
  ∧ (∀ v, Js.truthyProp (get p v "id") = true → get p' v "id" = get p v "id")
  ∧ (EmptyString ∉ refs →
     ∀ x v, x ∈ rs → refcontent x = Some v → truthyValue v = true →
            Js.truthyProp (get p' v "id") = true)
  ∧ ((∀ x, x ∈ rs → refcontent x ≠ Some (VObject ObjectPrototype)) →
     objectAt p' ObjectPrototype = objectAt p ObjectPrototype
     ∧ ∀ x key, x ∈ rs → leadsTo p (ref x) key → refcontent x = storeGet p key).
Proof.
  revert p rs. induction refs as [|r0 refs IH]; intros p rs; cbn [resolveAll].
  { intros [= <- <-]. split_and!; [done..| |].
    - by intros _ x v ?%elem_of_nil.
    - intros _. split; [done|]. by intros x key ?%elem_of_nil. }
  unfold mbind, R_bind at 1.
  destruct (toRefContent fuel r0 p) as [[x0|?|] p1] eqn:Hstep; [|done..].
  unfold mbind, R_bind at 1.
  destruct (resolveAll fuel refs p1) as [[xs|?|] p2] eqn:Hrest; [|done..].
  intros [= <- <-].
  destruct (IH _ _ Hrest) as (Hkeys & He & Ha & Hid & Hids & Hwalk).
  pose proof (toRefContent_frame _ _ _ _ _ Hstep) as (He1 & Ha1 & Hid1 & Hp1).
  pose proof (toRefContent_returns _ _ _ _ _ Hstep) as (Href & _ & Hc).
  split_and!.
  - rewrite fmap_cons. by f_equal.
  - by rewrite He.
  - intros v. by rewrite Ha.
  - intros v Hv. rewrite Hid; [by apply Hid1|]. by rewrite Hid1.
  - rewrite not_elem_of_cons. intros [Hr0 Hrefs] x v [->|Hx]%elem_of_cons Hv Ht.
    + rewrite Hv in Hc. destruct Hc as (_ & _ & _ & _ & Hset).
      assert (Js.truthyProp (get p1 v "id") = true) as H1 by (apply Hset; congruence).
      by rewrite Hid.
    + by eapply Hids.
  - intros Hno.
    assert (Hno0 : refcontent x0 ≠ Some (VObject ObjectPrototype)) by (apply Hno; left).
    destruct Hwalk as [Hp2 Hwalk]; [intros x Hx; apply Hno; by right|].
    specialize (Hp1 Hno0).
    destruct (aliasPath_ext 0 p p1 EmptyString He1 Ha1 Hp1) as [Hget _].
    split; [by rewrite Hp2|].
    intros x key [->|Hx]%elem_of_cons Hto.
    + rewrite Href in Hto. destruct (refcontent x0) as [v|].
      * destruct Hc as (_ & (key' & Hto' & Hget') & _).
        by rewrite (leadsTo_functional _ _ _ _ Hto Hto').
      * destruct Hc as (_ & [(_ & key' & Hto' & Hget')|[_ Hcycle]]).
        -- by rewrite (leadsTo_functional _ _ _ _ Hto Hto').
        -- by destruct (Hcycle key).
    + rewrite <-Hget. apply Hwalk; [done|].
      destruct Hto as (f & c & Hc' & Hlast). exists f, c.
      by rewrite (proj2 (aliasPath_ext f p p1 (ref x) He1 Ha1 Hp1)).
Qed.

Lemma resolveAll_settles fuel refs p :
  (turns p ≤ fuel)%nat →
  ∃ c p', resolveAll fuel refs p = (c, p')
          ∧ match c with
            | Normal rs => length rs = length refs
            | Throw e => e = TypeError "refcontent.id"
            | Unsettled => False
            end.
Proof.
  revert p. induction refs as [|r0 refs IH]; intros p Hfuel; cbn [resolveAll].
  { by exists (Normal []), p. }
  destruct (toRefContent_settles r0 p fuel Hfuel) as (c & p1 & Hstep & Hc).
  pose proof (toRefContent_outcome _ _ _ _ _ Hstep) as (He & Hout).
  unfold mbind, R_bind at 1. rewrite Hstep. destruct c as [x0|e|]; [| |done].
  - destruct (IH p1) as (c2 & p2 & Hrest & Hc2).
    { unfold turns, storeKeys in *. by rewrite He. }
    unfold mbind, R_bind at 1. rewrite Hrest. destruct c2 as [xs|e|]; [| |done].
    + eexists _, _. split; [done|]. cbn. by rewrite Hc2.
    + by eexists _, _.
  - eexists _, _. split; [done|]. by destruct Hout.
Qed.

(** X21. Resolving the keys of a section, [refs.map(toRefContent)], none
    of them empty, gives one result per key, in order; the own properties
    of the store and every alias pointer are as before; and every truthy
    content handed out has, once all keys are resolved, a truthy [id]. *)
Theorem resolveAll_gives_every_content_an_id fuel refs p rs p' :
  resolveAll fuel refs p = (Normal rs, p') →
  EmptyString ∉ refs →
  ref <$> rs = refs
  ∧ entries p' = entries p
  ∧ (∀ v, get p' v "aliasOf" = get p v "aliasOf")
  ∧ ∀ x v, x ∈ rs → refcontent x = Some v → truthyValue v = true →
           Js.truthyProp (get p' v "id") = true.
Proof.
  intros Hrun Hne.
  destruct (resolveAll_invariant _ _ _ _ _ Hrun) as (? & ? & ? & _ & Hids & _).
  split_and!; [done..|]. by apply Hids.
Qed.

Lemma resolveAll_gives_every_content_an_id_witness :
  resolveAll 4 ["html5"; "HTML"] chainPage = (Normal chainRefs, chainPageResolved)
  ∧ ref <$> chainRefs = ["html5"; "HTML"]
  ∧ entries chainPageResolved = entries chainPage.
Proof.
  split; [vm_compute; reflexivity|].
  destruct (resolveAll_gives_every_content_an_id 4 ["html5"; "HTML"] chainPage chainRefs
              chainPageResolved) as (H1 & H2 & _); [vm_compute; reflexivity| |by split].
  rewrite !not_elem_of_cons. split_and!; [done|done|apply not_elem_of_nil].
Defined.

(** X22. When [Object.prototype] is not among the contents handed out,
    every cited key whose walk along the alias pointers ends at some key
    is handed what the store answers at that key: so two cited keys that
    lead to the same key are handed the same content, the same object. *)
Theorem keys_with_one_target_share_one_content fuel refs p rs p' x1 x2 key :
  resolveAll fuel refs p = (Normal rs, p') →
  (∀ x, x ∈ rs → refcontent x ≠ Some (VObject ObjectPrototype)) →
  x1 ∈ rs → x2 ∈ rs →
  leadsTo p (ref x1) key → leadsTo p (ref x2) key →
  refcontent x1 = storeGet p key ∧ refcontent x2 = refcontent x1.
Proof.
  intros Hrun Hno H1 H2 Ht1 Ht2.
  destruct (resolveAll_invariant _ _ _ _ _ Hrun) as (_ & _ & _ & _ & _ & Hwalk).
  destruct (Hwalk Hno) as [_ Hall].
  rewrite (Hall _ _ H1 Ht1), (Hall _ _ H2 Ht2). done.
Qed.

Lemma chainRefs_no_prototype :
  ∀ x, x ∈ chainRefs → refcontent x ≠ Some (VObject ObjectPrototype).
Proof.
  intros x. unfold chainRefs. rewrite !elem_of_cons, elem_of_nil.
  intros [->|[->|[]]]; discriminate.
Defined.

Lemma chainPage_leads_to_HTML :
  leadsTo chainPage "html5" "HTML" ∧ leadsTo chainPage "HTML" "HTML".
Proof.
  split.
  - exists 2%nat, ["html5"; "HTML"]. split; vm_compute; reflexivity.
  - exists 1%nat, ["HTML"]. split; vm_compute; reflexivity.
Defined.

Lemma keys_with_one_target_share_one_content_witness :
  resolveAll 4 ["html5"; "HTML"] chainPage = (Normal chainRefs, chainPageResolved)
  ∧ refcontent (mkRef "html5" (Some (VObject (EntryObject 2)))) = storeGet chainPage "HTML"
  ∧ refcontent (mkRef "HTML" (Some (VObject (EntryObject 2))))
    = refcontent (mkRef "html5" (Some (VObject (EntryObject 2)))).
Proof.
  split; [vm_compute; reflexivity|].
  apply (keys_with_one_target_share_one_content 4 ["html5"; "HTML"] chainPage chainRefs
           chainPageResolved (mkRef "html5" (Some (VObject (EntryObject 2))))
           (mkRef "HTML" (Some (VObject (EntryObject 2)))) "HTML");
    [vm_compute; reflexivity | exact chainRefs_no_prototype | by left | by right; left
    | exact (proj1 chainPage_leads_to_HTML) | exact (proj2 chainPage_leads_to_HTML)].
Defined.

Lemma NoDup_fmap_inj_on {A B} (f : A → B) (l : list A) x y :
  NoDup (f <$> l) → x ∈ l → y ∈ l → f x = f y → x = y.
Proof.
  induction l as [|a l IH]; [by intros _ ?%elem_of_nil|].
  rewrite fmap_cons, NoDup_cons, !elem_of_cons. intros [Ha Hnd] [->|Hx] [->|Hy] Hf.
  - done.
  - exfalso. apply Ha. rewrite Hf. by apply list_elem_of_fmap_2.
  - exfalso. apply Ha. rewrite <-Hf. by apply list_elem_of_fmap_2.
  - by apply IH.
Qed.

Lemma elem_of_goodRefsOn p (rs : list Ref) (x : GoodRef) :
  x ∈ goodRefsOn p (groupRefs rs).1 →
  ∃ r v, r ∈ rs ∧ refcontent r = Some v ∧ ref r = goodRef x ∧ goodContent x = viewOf p v.
Proof.
  unfold goodRefsOn, groupRefs. cbn [fst]. rewrite list_elem_of_omap.
  intros (r & [_ Hin]%list_elem_of_filter & Hx).
  destruct (refcontent r) as [v|] eqn:Hv; cbn in Hx; [|done]. simplify_eq.
  by exists r, v.
Qed.

(** X23. A reference cited under several keys that lead to the same key
    of the store is listed once: of the good references of a section, as
    [getUniqueRefs] reads them once all keys are resolved, two that are
    kept and whose keys lead to the same key are the same reference. *)
Theorem one_entry_per_target fuel refs p rs p' x1 x2 key :
  resolveAll fuel refs p = (Normal rs, p') →
  (∀ x, x ∈ rs → refcontent x ≠ Some (VObject ObjectPrototype)) →
  x1 ∈ getUniqueRefs (goodRefsOn p' (groupRefs rs).1) →
  x2 ∈ getUniqueRefs (goodRefsOn p' (groupRefs rs).1) →
  leadsTo p (goodRef x1) key → leadsTo p (goodRef x2) key →
  x1 = x2.
Proof.
  intros Hrun Hno H1 H2 Ht1 Ht2.
  destruct (resolveAll_invariant _ _ _ _ _ Hrun) as (_ & _ & _ & _ & _ & Hwalk).
  destruct (Hwalk Hno) as [_ Hall].
  pose proof (firstsNotIn_sublist [] (goodRefsOn p' (groupRefs rs).1)) as Hsub.
  rewrite <-getUniqueRefs_firsts in Hsub.
  destruct (elem_of_goodRefsOn _ _ _ (elem_of_sublist _ _ _ H1 Hsub))
    as (r1 & v1 & Hr1 & Hv1 & Hk1 & Hc1).
  destruct (elem_of_goodRefsOn _ _ _ (elem_of_sublist _ _ _ H2 Hsub))
    as (r2 & v2 & Hr2 & Hv2 & Hk2 & Hc2).
  rewrite <-Hk1 in Ht1. rewrite <-Hk2 in Ht2.
  pose proof (Hall _ _ Hr1 Ht1) as E1. pose proof (Hall _ _ Hr2 Ht2) as E2.
  assert (v1 = v2) as -> by congruence.
  apply (NoDup_fmap_inj_on canonicalId (getUniqueRefs (goodRefsOn p' (groupRefs rs).1)));
    [|done..|].
  - rewrite getUniqueRefs_firsts. apply firstsNotIn_NoDup.
  - unfold canonicalId. congruence.
Qed.

Lemma one_entry_per_target_witness :
  getUniqueRefs (goodRefsOn chainPageResolved (groupRefs chainRefs).1)
  = [mkGoodRef "html5" (setId "html5" localHtml)]
  ∧ ∀ x1 x2, x1 ∈ getUniqueRefs (goodRefsOn chainPageResolved (groupRefs chainRefs).1) →
             x2 ∈ getUniqueRefs (goodRefsOn chainPageResolved (groupRefs chainRefs).1) →
             leadsTo chainPage (goodRef x1) "HTML" →
             leadsTo chainPage (goodRef x2) "HTML" → x1 = x2.
Proof.
  split; [vm_compute; reflexivity|].
  intros x1 x2.
  apply (one_entry_per_target 4 ["html5"; "HTML"] chainPage chainRefs chainPageResolved
           x1 x2 "HTML"); [vm_compute; reflexivity | exact chainRefs_no_prototype].
Defined.

(** X24. Resolving the keys of a section never hangs, whatever the page
    and the keys: as many loop turns per key as there are keys at which
    the store can answer, plus two, are enough. It returns one result per
    key, or throws the [TypeError] of a string entry. *)
Theorem resolveAll_always_settles refs p (extra : nat) :
  ∃ c p', resolveAll (turns p + extra) refs p = (c, p')
          ∧ match c with
            | Normal rs => length rs = length refs
            | Throw e => e = TypeError "refcontent.id"
            | Unsettled => False
            end.
Proof. apply resolveAll_settles. lia. Qed.

(** ** The render side and [resolveRef] *)

#[global] Instance addressOf_inj : Inj (=) (=) addressOf.
Proof. intros k1 k2 [= H]. by apply (inj encode). Qed.

Lemma pageOf_entries b k :
  entries (pageOf b) !! k = (λ _, VObject (addressOf k)) <$> b !! k.
Proof. unfold pageOf. cbn. rewrite map_lookup_imap. by destruct (b !! k). Qed.

Lemma pageOf_objects b k : objects (pageOf b) !! addressOf k = b !! k.
Proof. unfold pageOf. cbn. apply lookup_kmap, _. Qed.

Lemma pageOf_objectAt b l :
  (∀ k, l ≠ addressOf k) → objectAt (pageOf b) l = emptyObject.
Proof.
  intros Hl. unfold objectAt, pageOf. cbn.
  rewrite (proj2 (lookup_kmap_None addressOf b l)); [done|].
  intros k ->. by destruct (Hl k).
Qed.

Lemma pageOf_prototype b : objectAt (pageOf b) ObjectPrototype = emptyObject.
Proof. by apply pageOf_objectAt. Qed.

Lemma pageOf_get b k e name :
  b !! k = Some e → get (pageOf b) (VObject (addressOf k)) name = field name e.
Proof.
  intros Hk. unfold get. rewrite pageOf_prototype. unfold objectAt.
  rewrite pageOf_objects, Hk. change (default emptyObject (Some e)) with e.
  destruct (field name e); [done|]. unfold field. by repeat case_bool_decide.
Qed.

(** What [Object.prototype] answers on such a page is an object that is
    no alias and has no [id]. *)
Lemma pageOf_prototypeGet b k v :
  prototypeGet (pageOf b) k = Some v →
  ∃ l, v = VObject l ∧ (∀ k', l ≠ addressOf k').
Proof.
  unfold prototypeGet. rewrite pageOf_prototype.
  case_bool_decide; [intros [= <-]; by eexists|].
  case_bool_decide; [intros [= <-]; by eexists|].
  unfold field. by repeat case_bool_decide.
Qed.

Lemma pageOf_get_inherited b l name :
  (∀ k, l ≠ addressOf k) → get (pageOf b) (VObject l) name = None.
Proof.
  intros Hl. unfold get. rewrite pageOf_prototype, pageOf_objectAt by done.
  unfold field. by repeat case_bool_decide.
Qed.

Lemma pageOf_storeGet b k :
  storeGet (pageOf b) k
  = match b !! k with
    | Some _ => Some (VObject (addressOf k))
    | None => prototypeGet (pageOf b) k
    end.
Proof. unfold storeGet. rewrite pageOf_entries. by destruct (b !! k). Qed.

(** On the page of a store, the loop of [toRefContent] walks the keys
    that [resolveRef] visits. *)
Lemma aliasPath_pageOf fuel b key : aliasPath fuel (pageOf b) key = aliasChain fuel b key.
Proof.
  revert key. induction fuel as [|fuel IH]; intros key; [done|].
  cbn [aliasPath aliasChain]. rewrite pageOf_storeGet.
  destruct (b !! key) as [e|] eqn:He.
  - unfold isAlias. rewrite (pageOf_get b key e "aliasOf" He). cbn [truthyValue andb].
    change (field "aliasOf" e) with (aliasOf e).
    destruct (Js.truthyProp (aliasOf e)); [|done]. by rewrite IH.
  - destruct (prototypeGet (pageOf b) key) as [v|] eqn:Hv; [|done].
    destruct (pageOf_prototypeGet _ _ _ Hv) as (l & -> & Hl).
    unfold isAlias. by rewrite pageOf_get_inherited.
Qed.

(** X12. [toRefContent] against [resolveRef], on the page of a store of
    objects. Whenever [resolveRef] returns for a key, [toRefContent]
    returns for it too and reports nothing, and both have walked to the
    same key. When [resolveRef] returns the entry there, [toRefContent]
    hands out the object of that entry, which ends with [id] defaulted to
    the lower-cased key. When [resolveRef] returns [null], because the
    store has no own property there, [toRefContent] hands out what
    [Object.prototype] answers at that key. *)
Theorem toRefContent_agrees_with_resolveRef fuel key w r w' :
  resolveRef fuel key w = (Normal r, w') →
  ∃ target p',
    resolvesTo (biblio w) key target
    ∧ r = biblio w !! target
    ∧ toRefContent (turns (pageOf (biblio w))) key (pageOf (biblio w))
      = (Normal (mkRef key (storeGet (pageOf (biblio w)) target)), p')
    ∧ reported p' = []
    ∧ match r with
      | Some e =>
          storeGet (pageOf (biblio w)) target = Some (VObject (addressOf target))
          ∧ objects p' !! addressOf target = Some (withDefaultId key e)
      | None =>
          storeGet (pageOf (biblio w)) target = prototypeGet (pageOf (biblio w)) target
      end.
Proof.
  intros Hrun.
  destruct (resolveRef_chain _ _ _ _ _ Hrun) as (-> & Hd & c & kn & Hc & Hlast & Hr & Hna).
  set (page := pageOf (biblio w)).
  assert (Hpath : aliasPath fuel page key = Some c) by (unfold page; by rewrite aliasPath_pageOf).
  destruct (followAliases_path fuel key key {[key]} page c Hpath) as (kn' & Hlast' & Hwalk).
  { destruct (aliasPath_head _ _ _ _ Hpath) as [c' ->]. cbn [tail].
    apply aliasPath_NoDup, NoDup_cons in Hpath as [Hhead _].
    intros k Hk ->%elem_of_singleton. done. }
  rewrite Hlast in Hlast'. injection Hlast' as <-.
  exists kn.
  assert (Hshort : ∃ p', toRefContent (length c) key page
                         = (Normal (mkRef key (storeGet page kn)), p')
                         ∧ reported p' = []
                         ∧ match r with
                           | Some e =>
                               storeGet page kn = Some (VObject (addressOf kn))
                               ∧ objects p' !! addressOf kn = Some (withDefaultId key e)
                           | None => storeGet page kn = prototypeGet page kn
                           end).
  { unfold toRefContent. runfold. rewrite Hwalk. subst page. rewrite pageOf_storeGet.
    rewrite Hr. destruct (biblio w !! kn) as [e|] eqn:He.
    - rewrite (pageOf_get _ kn e "id" He). cbn [truthyValue andb].
      change (field "id" e) with (id e). unfold withDefaultId.
      destruct (Js.truthyProp (id e)); cbn [negb putId]; runfold.
      + eexists. split_and!; [done..|]. by rewrite pageOf_objects.
      + eexists. split_and!; [done..|]. cbn.
        unfold objectAt. rewrite pageOf_objects, He. cbn. by rewrite lookup_insert_eq.
    - destruct (prototypeGet (pageOf (biblio w)) kn) as [v|] eqn:Hv; [|by eexists].
      destruct (pageOf_prototypeGet _ _ _ Hv) as (l & -> & Hl).
      rewrite pageOf_get_inherited by done. cbn. runfold. by eexists. }
  destruct Hshort as (p' & Hshort & Hrep & Hcontent).
  exists p'. split_and!; [by exists fuel, c|done| |done|done].
  destruct (toRefContent_settles key page (turns page) ltac:(lia)) as (c0 & p0 & Hlong & Hc0).
  assert (Hn : Normal (mkRef key (storeGet page kn)) ≠ Unsettled) by done.
  pose proof (toRefContent_more_fuel (length c) (Nat.max (length c) (turns page))
                _ _ _ _ ltac:(lia) Hn Hshort) as E1.
  pose proof (toRefContent_more_fuel (turns page) (Nat.max (length c) (turns page))
                _ _ _ _ ltac:(lia) Hc0 Hlong) as E2.
  rewrite E1 in E2. by rewrite Hlong, <-E2.
Qed.

Lemma toRefContent_agrees_with_resolveRef_witness :
  resolveRef 2 "html5" chainWorld = (Normal (Some localHtml), chainWorld)
  ∧ ∃ target p',
      resolvesTo (biblio chainWorld) "html5" target
      ∧ Some localHtml = biblio chainWorld !! target
      ∧ toRefContent (turns (pageOf (biblio chainWorld))) "html5" (pageOf (biblio chainWorld))
        = (Normal (mkRef "html5" (storeGet (pageOf (biblio chainWorld)) target)), p')
      ∧ reported p' = []
      ∧ storeGet (pageOf (biblio chainWorld)) target = Some (VObject (addressOf target))
      ∧ objects p' !! addressOf target = Some (withDefaultId "html5" localHtml).
Proof.
  split; [vm_compute; reflexivity|].
  apply (toRefContent_agrees_with_resolveRef 2 "html5" chainWorld (Some localHtml) chainWorld).
  vm_compute. reflexivity.
Defined.

(** On an empty store [resolveRef] returns [null] for [toString], and
    [toRefContent] hands out the method. *)
Example toRefContent_disagrees_on_inherited_key :
  resolveRef 1 "toString" (mkWorld ∅ Resolved (mkConf [] [] None) [] [] [])
  = (Normal None, mkWorld ∅ Resolved (mkConf [] [] None) [] [] [])
  ∧ (toRefContent 2 "toString" (pageOf ∅)).1
    = Normal (mkRef "toString" (Some (VObject (Builtin "toString")))).
Proof. split; vm_compute; reflexivity. Qed.
